(** * openscad_bindings: the code writer and the model tree

    A shallow embedding of [openscad_bindings/__init__.py]: the values a
    parameter can hold, [format_parameter], the [CodeWriter] class (an
    emission buffer with an indent depth), the [Model] tree with its
    serializer [_write_scad_code] and [__str__], and the constructors
    ([union], [cube], ...).  The compiler invocation ([run_openscad],
    [scad_eval], [render]) and the numpy [Array] wrapper are outside this
    development.

    Python strings are modelled by [string], one [ascii] per character.
    Python exceptions are modelled by a result type, and the methods of
    [CodeWriter], which mutate the writer, by functions from the writer to
    a result and the writer afterwards: a raised exception leaves the
    mutations made so far in place, as it does in Python. *)

From Stdlib Require Import String Ascii List ZArith Lia Bool DecimalString.
Import ListNotations.
Local Open Scope string_scope.
Local Open Scope Z_scope.

Set Implicit Arguments.
Set Warnings "-register-all".

(** ** Exceptions and the writer monad *)

Inductive exn : Type :=
| StopIteration
| IndexError
| TypeError.

Inductive result (A : Type) : Type :=
| Ok (a : A)
| Raise (e : exn).

Arguments Ok {A} a.
Arguments Raise {A} e.

(** A computation over a mutable world [W]: it returns normally or
    raises, and in both cases hands back the world as it left it. *)
Definition M (W A : Type) : Type := W -> result A * W.

Definition ret {W A : Type} (a : A) : M W A :=
  fun w => (Ok a, w).

Definition bind {W A B : Type} (m : M W A) (k : A -> M W B) : M W B :=
  fun w =>
    match m w with
    | (Ok a, w') => k a w'
    | (Raise e, w') => (Raise e, w')
    end.

Definition raise {W A : Type} (e : exn) : M W A :=
  fun w => (Raise e, w).

(** A call to a function that touches no state. *)
Definition lift {W A : Type} (r : result A) : M W A :=
  fun w => (r, w).

Declare Scope py_scope.
Delimit Scope py_scope with py.
Notation "x <- m ;; k" := (bind m (fun x => k))
  (at level 61, m at next level, right associativity) : py_scope.
Notation "m ;; k" := (bind m (fun _ => k))
  (at level 61, right associativity) : py_scope.
Local Open Scope py_scope.

(** ** Python values and their text *)

Definition LF : string := String "010"%char "".

(** A nested list of numbers, the form matrices and point lists take. *)
Inductive array : Type :=
| AInt (z : Z)
| AFloat (txt : string)
| AList (l : list array).

(** The values a parameter holds.  A float is carried by the text [str]
    gives it; its arithmetic plays no part in serialization. *)
Inductive value : Type :=
| VBool (b : bool)
| VInt (z : Z)
| VFloat (txt : string)
| VStr (s : string)
| VList (l : list array).

(** [str(z)] for an int of at most 4300 digits; [py_str_limit] below has
    the exception that a longer one raises. *)
Definition str_int (z : Z) : string := NilZero.string_of_int (Z.to_int z).

(** [sep.join(l)] *)
Definition join (sep : string) (l : list string) : string := String.concat sep l.

(** [repr] of a number or a nested list of numbers. *)
Fixpoint repr_array (a : array) : string :=
  match a with
  | AInt z => str_int z
  | AFloat txt => txt
  | AList l => "[" ++ join ", " (map repr_array l) ++ "]"
  end.

(** [str(v)] *)
Definition py_str (v : value) : string :=
  match v with
  | VBool true => "True"
  | VBool false => "False"
  | VInt z => str_int z
  | VFloat txt => txt
  | VStr s => s
  | VList l => "[" ++ join ", " (map repr_array l) ++ "]"
  end.

(** [s * n] for a string [s] and an int [n]; empty when [n <= 0]. *)
Definition str_mul (s : string) (n : Z) : string :=
  String.concat "" (repeat s (Z.to_nat n)).

(** [s[0]] *)
Definition str_index0 (s : string) : result ascii :=
  match s with
  | EmptyString => Raise IndexError
  | String c _ => Ok c
  end.

(** [s[1:]] for a string. *)
Definition str_slice1 (s : string) : string :=
  match s with
  | EmptyString => EmptyString
  | String _ r => r
  end.

(** [v[1:]]: strings and lists can be sliced, the other values are not
    subscriptable. *)
Definition py_slice1 (v : value) : result value :=
  match v with
  | VStr s => Ok (VStr (str_slice1 s))
  | VList l => Ok (VList (tl l))
  | VBool _ | VInt _ | VFloat _ => Raise TypeError
  end.

(** [s + v] for a string [s]: only a string can be concatenated to it. *)
Definition str_add (s : string) (v : value) : result string :=
  match v with
  | VStr t => Ok (s ++ t)
  | _ => Raise TypeError
  end.

(** Truth value of a string. *)
Definition str_truthy (s : string) : bool :=
  match s with
  | EmptyString => false
  | String _ _ => true
  end.

(** ** format_parameter *)

Definition bind_result {A B : Type} (r : result A) (k : A -> result B) : result B :=
  match r with
  | Ok a => k a
  | Raise e => Raise e
  end.

Notation "'try' x := r 'in' k" := (bind_result r (fun x => k))
  (at level 10, x name, r at level 100, k at level 200, only parsing).

(** A parameter is a pair of an optional name and a value.  The function
    returns a string when it renders [name=value], and the value itself
    when there is no name. *)
Definition format_parameter (arg : option string * value) : result value :=
  let (k, v) := arg in
  let v := match v with VBool true => VStr "true" | _ => v end in
  let v := match v with VBool false => VStr "false" | _ => v end in
  try k := match k with
           | None => Ok None
           | Some k0 =>
               try c := str_index0 k0 in
               if Ascii.eqb c "_"
               then try t := py_slice1 v in
                    try k1 := str_add "$" t in
                    Ok (Some k1)
               else Ok (Some k0)
           end in
  match k with
  | Some k0 => if str_truthy k0 then Ok (VStr (k0 ++ "=" ++ py_str v)) else Ok v
  | None => Ok v
  end.

(** ** CodeWriter *)

Record CodeWriter : Type := mkCodeWriter {
  _source : list value;
  _buffer : list string;
  _indent : Z
}.

(** [CodeWriter()] *)
Definition CodeWriter__init__ : CodeWriter :=
  {| _source := []; _buffer := []; _indent := 0 |}.

(** The [source] property. *)
Definition source (self : CodeWriter) : string :=
  join "" (map py_str (_source self)).

(** [write] appends whatever it is given, a string or another value;
    [source] takes the text of each fragment when it is read. *)
Definition write (text : value) : M CodeWriter unit :=
  fun self =>
    (Ok tt, {| _source := _source self ++ [text];
               _buffer := _buffer self;
               _indent := _indent self |}).

Definition fill (text : string) : M CodeWriter unit :=
  fun self => write (VStr (LF ++ str_mul "    " (_indent self) ++ text)) self.

Definition buffer_writer (text : string) : M CodeWriter unit :=
  fun self =>
    (Ok tt, {| _source := _source self;
               _buffer := _buffer self ++ [text];
               _indent := _indent self |}).

(** The [buffer] property: reading it empties the buffer. *)
Definition buffer : M CodeWriter string :=
  fun self =>
    (Ok (join "" (_buffer self)),
     {| _source := _source self; _buffer := []; _indent := _indent self |}).

(** [self._indent += d] *)
Definition add_indent (d : Z) : M CodeWriter unit :=
  fun self =>
    (Ok tt, {| _source := _source self;
               _buffer := _buffer self;
               _indent := _indent self + d |}).

(** The context managers take the body of their [with] statement.  They
    are generators with a bare [yield]: an exception raised by the body
    is thrown in at the [yield] and nothing after it runs. *)
Definition block (body : M CodeWriter unit) : M CodeWriter unit :=
  write (VStr "{") ;;
  add_indent 1 ;;
  body ;;
  add_indent (-1) ;;
  fill "}".

Definition delimit (start end_ : string) (body : M CodeWriter unit) : M CodeWriter unit :=
  write (VStr start) ;;
  body ;;
  write (VStr end_).

(** ** Iteration

    An iterator is the list of the productions still to come: [next]
    runs the first one, which may act on the world as a generator does,
    and an exhausted iterator raises [StopIteration]. *)
Section Iteration.
Variables W A : Type.

Definition iterator : Type := list (M W A).

(** [iter(l)] for a list [l]: producing an element has no effect. *)
Definition iter_list (l : list A) : iterator := map (@ret W A) l.

(** [next(it)], with the iterator as it is afterwards. *)
Definition py_next (it : iterator) : M W (A * iterator) :=
  match it with
  | [] => raise StopIteration
  | g :: it' => x <- g ;; ret (x, it')
  end.

(** [for x in it: body(x)].  The loop ends when [next] raises
    [StopIteration]; what the body raises propagates. *)
Fixpoint for_in (it : iterator) (body : A -> M W unit) : M W unit :=
  match it with
  | [] => ret tt
  | g :: it' =>
      fun w =>
        match g w with
        | (Ok x, w') => (body x ;; for_in it' body) w'
        | (Raise StopIteration, w') => (Ok tt, w')
        | (Raise e, w') => (Raise e, w')
        end
  end.

(** [for x in l: body(x)] for a list [l]. *)
Definition for_list (body : A -> M W unit) : list A -> M W unit :=
  fix loop (l : list A) : M W unit :=
    match l with
    | [] => ret tt
    | x :: l' => body x ;; loop l'
    end.

(** [CodeWriter.interleave]; [seq] is the iterator [iter(seq)] returns.
    The [try] covers both [next(seq)] and the call of [f]. *)
Definition interleave (inter : M W unit) (f : A -> M W unit) (seq : iterator)
  : M W unit :=
  fun w =>
    match (xi <- py_next seq ;; f (fst xi) ;; ret (snd xi)) w with
    | (Raise StopIteration, w') => (Ok tt, w')
    | (Raise e, w') => (Raise e, w')
    | (Ok seq', w') => for_in seq' (fun x => inter ;; f x) w'
    end.
End Iteration.

(** ** Model

    A node holds its command name, its parameters in order (each with
    its name, or [None] for a positional one) and its operands, which
    are [None] or a list of nodes. *)

Inductive Model : Type := mkModel {
  command_name : string;
  args : list (option string * value);
  operands : option (list Model)
}.

(** [Model(command_name, *args, operands=operands, **kwargs)]; [kwargs]
    lists the named parameters in the order they were given.  These are
    the named parameters that reach [kwargs]: their names are distinct
    and none is [self], [command_name] or [operands].  The operands are
    [None] or a list; [Node] below is the node that may hold an
    iterator. *)
Definition Model__init__ (command_name : string) (args : list value)
    (operands : option (list Model)) (kwargs : list (string * value)) : Model :=
  {| command_name := command_name;
     args := map (fun arg => (None, arg)) args
             ++ map (fun kv => (Some (fst kv), snd kv)) kwargs;
     operands := operands |}.

Fixpoint _write_scad_code (self : Model) : M CodeWriter unit :=
  fill (command_name self) ;;
  delimit "(" ")"
    (interleave
       (write (VStr ", "))
       (fun arg => text <- lift (format_parameter arg) ;; write text)
       (iter_list CodeWriter (args self))) ;;
  match operands self with
  | None => write (VStr ";")
  | Some ops => block (for_list _write_scad_code ops)
  end.

(** [Model.__str__] *)
Definition Model__str__ (self : Model) : result string :=
  let c := CodeWriter__init__ in
  match _write_scad_code self c with
  | (Ok _, c) => Ok (str_slice1 (source c))
  | (Raise e, _) => Raise e
  end.

(** *** Operators

    The operands are the list, or the node, the operator is given.  The
    named parameters are those that reach [kwargs]: none has the name of
    the first parameter of the operator, [models] or [model], nor that
    of a parameter of [Model.__init__]; Python refuses such a call with
    [TypeError]. *)

Definition union (models : list Model) (args : list value) (kwargs : list (string * value)) : Model :=
  Model__init__ "union" args (Some models) kwargs.

Definition intersection (models : list Model) (args : list value) (kwargs : list (string * value)) : Model :=
  Model__init__ "intersection" args (Some models) kwargs.

Definition difference (models : list Model) (args : list value) (kwargs : list (string * value)) : Model :=
  Model__init__ "difference" args (Some models) kwargs.

Definition hull (model : Model) (args : list value) (kwargs : list (string * value)) : Model :=
  Model__init__ "hull" args (Some [model]) kwargs.

Definition minkowski (models : list Model) (args : list value) (kwargs : list (string * value)) : Model :=
  Model__init__ "minkowski" args (Some models) kwargs.

Definition multmatrix (model : Model) (args : list value) (kwargs : list (string * value)) : Model :=
  Model__init__ "multmatrix" args (Some [model]) kwargs.

Definition linear_extrude (model : Model) (args : list value) (kwargs : list (string * value)) : Model :=
  Model__init__ "linear_extrude" args (Some [model]) kwargs.

Definition rotate_extrude (model : Model) (args : list value) (kwargs : list (string * value)) : Model :=
  Model__init__ "rotate_extrude" args (Some [model]) kwargs.

Definition projection (model : Model) (args : list value) (kwargs : list (string * value)) : Model :=
  Model__init__ "projection" args (Some [model]) kwargs.

Definition offset (model : Model) (args : list value) (kwargs : list (string * value)) : Model :=
  Model__init__ "offset" args (Some [model]) kwargs.

(** *** Primitives

    The named parameters are those that reach [kwargs]: a primitive
    passes a parameter named [operands] on to [Model.__init__] as the
    operands of the node, and Python refuses one named [self] or
    [command_name] with [TypeError]. *)

Definition cube (args : list value) (kwargs : list (string * value)) : Model :=
  Model__init__ "cube" args None kwargs.

Definition sphere (args : list value) (kwargs : list (string * value)) : Model :=
  Model__init__ "sphere" args None kwargs.

Definition circle (args : list value) (kwargs : list (string * value)) : Model :=
  Model__init__ "circle" args None kwargs.

Definition square (args : list value) (kwargs : list (string * value)) : Model :=
  Model__init__ "square" args None kwargs.

Definition polyhedron (args : list value) (kwargs : list (string * value)) : Model :=
  Model__init__ "polyhedron" args None kwargs.

Definition cylinder (args : list value) (kwargs : list (string * value)) : Model :=
  Model__init__ "cylinder" args None kwargs.

Definition polygon (args : list value) (kwargs : list (string * value)) : Model :=
  Model__init__ "polygon" args None kwargs.

(** *** Methods that combine two nodes *)

(** [Model.__add__] *)
Definition Model__add__ (self other : Model) : Model :=
  minkowski [self; other] [] [].

Definition Model_union (self other : Model) : Model :=
  union [self; other] [] [].

Definition Model_intersection (self other : Model) : Model :=
  intersection [self; other] [] [].

Definition Model_difference (self other : Model) : Model :=
  difference [self; other] [] [].

(** ** Operands that are iterators

    [Model.__init__] keeps the object it is given as operands, and
    [_write_scad_code] iterates that object anew at every serialization.
    A list gives a new iterator each time.  An iterator is its own
    iterator: what one loop has taken from it is gone for the next.
    [Model] above is the node whose operands are lists.  A [Node] may
    also hold an iterator: [OIter id items] is the iterator object [id]
    that [iter(items)] made.  How many items an iterator has produced is
    kept in the store, so that every holder of the iterator sees it
    move. *)

Inductive operand_seq (A : Type) : Type :=
| OList (l : list A)
| OIter (id : nat) (items : list A).

Arguments OList {A} l.
Arguments OIter {A} id items.

Inductive Node : Type := mkNode {
  node_command_name : string;
  node_args : list (option string * value);
  node_operands : option (operand_seq Node)
}.

(** The store gives the position of every iterator.  A serialization
    acts on the store and on the writer. *)
Definition store : Type := nat -> nat.

Definition world : Type := (store * CodeWriter)%type.

(** A method of the writer: it leaves the store alone. *)
Definition on_writer {A : Type} (m : M CodeWriter A) : M world A :=
  fun sw => let (r, w') := m (snd sw) in (r, (fst sw, w')).

(** The iterator [id] has produced its item [i]. *)
Definition advance (id i : nat) : M world unit :=
  fun sw =>
    (Ok tt, (fun j => if Nat.eqb j id then S i else fst sw j, snd sw)).

(** [for x in it: body(x)] for the iterator [id] over [items].  [next]
    produces the item at the position of the iterator and moves the
    iterator by one; the position is read again at every turn, since the
    body may move the iterator too.  The loop walks the items with their
    index [i]: an item before the position was produced earlier, and is
    passed over. *)
Definition for_iterator {A : Type} (id : nat) (body : A -> M world unit)
  : nat -> list A -> M world unit :=
  fix loop (i : nat) (items : list A) {struct items} : M world unit :=
    match items with
    | [] => ret tt
    | x :: rest =>
        fun sw =>
          if Nat.ltb i (fst sw id)
          then loop (S i) rest sw
          else (advance id i ;; body x ;; loop (S i) rest) sw
    end.

(** [CodeWriter.block] around a body that acts on the world. *)
Definition block_in (body : M world unit) : M world unit :=
  on_writer (write (VStr "{")) ;;
  on_writer (add_indent 1) ;;
  body ;;
  on_writer (add_indent (-1)) ;;
  on_writer (fill "}").

(** [Model._write_scad_code] for a node whose operands may be an
    iterator. *)
Fixpoint Node_write_scad_code (self : Node) : M world unit :=
  on_writer (fill (node_command_name self)) ;;
  on_writer
    (delimit "(" ")"
       (interleave
          (write (VStr ", "))
          (fun arg => text <- lift (format_parameter arg) ;; write text)
          (iter_list CodeWriter (node_args self)))) ;;
  match node_operands self with
  | None => on_writer (write (VStr ";"))
  | Some (OList l) => block_in (for_list Node_write_scad_code l)
  | Some (OIter id items) =>
      block_in (for_iterator id Node_write_scad_code 0 items)
  end.

(** [Model.__str__] for such a node: the writer is new, the store is the
    one the call finds and leaves. *)
Definition Node__str__ (self : Node) : M store string :=
  fun s =>
    match Node_write_scad_code self (s, CodeWriter__init__) with
    | (Ok _, (s', c)) => (Ok (str_slice1 (source c)), s')
    | (Raise e, (s', _)) => (Raise e, s')
    end.

(** ** Array and the matrix product

    An [Array] is a numpy array; this module uses its conversion to
    nested lists, [tolist], and numpy's own product.  An array of one
    dimension or more is modelled by the nested list that [tolist]
    returns, and numpy's product is a parameter. *)

Definition Array : Type := list array.

Definition tolist (a : Array) : value := VList a.

(** [Model.__rmatmul__] *)
Definition Model__rmatmul__ (self : Model) (other : Array) : Model :=
  multmatrix self [tolist other] [].

(** The right operand of [@]: a node, or something else. *)
Inductive operand : Type :=
| OModel (m : Model)
| OValue (v : value).

Section Matmul.
Variable Exc : Type.
Variable ndarray__matmul__ : Array -> value -> Exc + value.

(** [Array.__matmul__]: a node or [None], unless numpy raises. *)
Definition Array__matmul__ (self : Array) (other : operand) : Exc + option Model :=
  match other with
  | OModel m => inr (Some (Model__rmatmul__ m self))
  | OValue v =>
      match ndarray__matmul__ self v with
      | inl e => inl e
      | inr _ => inr None
      end
  end.
End Matmul.

(** ** Running the compiler

    The file system and the processes are an environment that the
    collaborators act on: [TemporaryDirectory], [open] and [write],
    [subprocess.check_output], [bytes.decode], [Mesh.from_file] and
    [cleanup] are parameters, each free to return or to raise. *)

Inductive io_result (X A : Type) : Type :=
| Returns (a : A)
| Raises (x : X).

Arguments Returns {X A} a.
Arguments Raises {X A} x.

Section Compiler.
Variables Env Exc Bytes TempDir Mesh : Type.

(** [OpenSCADError] is the class of this module, [CalledProcessError]
    that of [subprocess]; [Builtin] are the exceptions of the
    serializer and [Other] all the exceptions of the collaborators. *)
Inductive exception : Type :=
| OpenSCADError (msg : string)
| CalledProcessError (output : Bytes)
| Builtin (e : exn)
| Other (e : Exc).

Definition IO (A : Type) : Type := Env -> io_result exception A * Env.

Definition io_ret {A : Type} (a : A) : IO A :=
  fun env => (Returns a, env).

Definition io_bind {A B : Type} (m : IO A) (k : A -> IO B) : IO B :=
  fun env =>
    match m env with
    | (Returns a, env') => k a env'
    | (Raises x, env') => (Raises x, env')
    end.

(** [try: body finally: final]: [final] runs however [body] ends, and
    what it raises replaces the outcome of [body]. *)
Definition try_finally {A : Type} (body : IO A) (final : IO unit) : IO A :=
  fun env =>
    match body env with
    | (r, env1) =>
        match final env1 with
        | (Returns _, env2) => (r, env2)
        | (Raises x, env2) => (Raises x, env2)
        end
    end.

Variable TemporaryDirectory : IO TempDir.
Variable name : TempDir -> string.
Variable cleanup : TempDir -> IO unit.
Variable write_file : string -> string -> IO unit.
Variable check_output : list string -> IO Bytes.
Variable decode : Bytes -> io_result exception string.
Variable Mesh_from_file : string -> IO Mesh.

(** The [try] covers the call and the decoding of what it returns. *)
Definition run_openscad (source_fp output_fp : string) : IO string :=
  fun env =>
    match io_bind (check_output ["openscad"; "-o"; output_fp; source_fp])
            (fun out => fun env' => (decode out, env')) env with
    | (Raises (CalledProcessError output), env') =>
        match decode output with
        | Returns msg => (Raises (OpenSCADError msg), env')
        | Raises x => (Raises x, env')
        end
    | (r, env') => (r, env')
    end.

Definition scad_eval (scad_code : string) : IO Mesh :=
  io_bind TemporaryDirectory (fun d =>
  try_finally
    (let source_fp := name d ++ "/_.scad" in
     let output_fp := name d ++ "/_.stl" in
     io_bind (write_file source_fp scad_code) (fun _ =>
     io_bind (run_openscad source_fp output_fp) (fun _ =>
     io_bind (Mesh_from_file output_fp) (fun output =>
     io_ret output))))
    (cleanup d)).

(** [Model.render] *)
Definition render (self : Model) : IO Mesh :=
  match Model__str__ self with
  | Ok code => scad_eval code
  | Raise e => fun env => (Raises (Builtin e), env)
  end.
End Compiler.

Arguments OpenSCADError {Exc Bytes} msg.
Arguments CalledProcessError {Exc Bytes} output.
Arguments Builtin {Exc Bytes} e.
Arguments Other {Exc Bytes} e.

(** ** The limit on the digits of an int

    CPython 3.11 refuses to turn an int of more than 4300 decimal digits
    into text ([sys.int_info.default_max_str_digits]): [str], [repr] and
    the f-string raise [ValueError].  The definitions above are the code
    for values within the limit.  [format_parameter_limit] is
    [format_parameter] for all values, with that exception. *)

Inductive exn_limit : Type :=
| Plain (e : exn)
| ValueError.

Definition max_str_digits : Z := 4300.

Fixpoint array_within_limit (a : array) : bool :=
  match a with
  | AInt z => Z.abs z <? 10 ^ max_str_digits
  | AFloat _ => true
  | AList l => forallb array_within_limit l
  end.

(** Every int the value holds has at most [max_str_digits] digits. *)
Definition within_limit (v : value) : bool :=
  match v with
  | VInt z => Z.abs z <? 10 ^ max_str_digits
  | VList l => forallb array_within_limit l
  | VBool _ | VFloat _ | VStr _ => true
  end.

(** [str(v)], and [{v}] in an f-string. *)
Definition py_str_limit (v : value) : io_result exn_limit string :=
  if within_limit v then Returns (py_str v) else Raises ValueError.

Definition format_parameter_limit (arg : option string * value)
  : io_result exn_limit value :=
  let (k, v) := arg in
  let v := match v with VBool true => VStr "true" | _ => v end in
  let v := match v with VBool false => VStr "false" | _ => v end in
  match (match k with
         | None => Ok None
         | Some k0 =>
             try c := str_index0 k0 in
             if Ascii.eqb c "_"
             then try t := py_slice1 v in
                  try k1 := str_add "$" t in
                  Ok (Some k1)
             else Ok (Some k0)
         end) with
  | Raise e => Raises (Plain e)
  | Ok (Some k0) =>
      if str_truthy k0
      then match py_str_limit v with
           | Returns s => Returns (VStr (k0 ++ "=" ++ s))
           | Raises e => Raises e
           end
      else Returns v
  | Ok None => Returns v
  end.

(** ** Vocabulary of the statements *)

(** Whether [format_parameter] returns for a parameter, the value it
    returns, and that value's text in the source. *)
Definition param_ok (arg : option string * value) : bool :=
  match format_parameter arg with
  | Ok _ => true
  | Raise _ => false
  end.

Definition formatted (arg : option string * value) : value :=
  match format_parameter arg with
  | Ok v => v
  | Raise _ => VStr ""
  end.

Definition param_text (arg : option string * value) : string :=
  py_str (formatted arg).

(** The value after the two rewrites of [True] and [False]. *)
Definition lowered (v : value) : value :=
  match v with
  | VBool true => VStr "true"
  | VBool false => VStr "false"
  | _ => v
  end.

(** The name begins with the sigil character. *)
Definition sigil (k : string) : bool :=
  match k with
  | EmptyString => false
  | String c _ => Ascii.eqb c "_"
  end.

(** Every parameter of every node of the tree can be formatted. *)
Fixpoint model_ok (m : Model) : bool :=
  forallb param_ok (args m)
  && match operands m with
     | None => true
     | Some ops => forallb model_ok ops
     end.

(** [x1, sep, x2, sep, ..., xn]: the separator between consecutive
    elements only. *)
Fixpoint intersperse {A : Type} (sep : A) (l : list A) : list A :=
  match l with
  | [] => []
  | x :: l' =>
      match l' with
      | [] => [x]
      | _ :: _ => x :: sep :: intersperse sep l'
      end
  end.

(** The writer [w] with the fragments [l] appended. *)
Definition appended (w : CodeWriter) (l : list value) : CodeWriter :=
  {| _source := _source w ++ l; _buffer := _buffer w; _indent := _indent w |}.

(** The fragments that open a statement at depth [d]: the command name
    on a line of its own and the parameter list in parentheses. *)
Definition head_frags (d : Z) (n : string) (a : list (option string * value))
  : list value :=
  [VStr (LF ++ str_mul "    " d ++ n); VStr "("]
  ++ intersperse (VStr ", ") (map formatted a)
  ++ [VStr ")"].

(** The writer as the body of a block opened on [w] finds it, and the
    writer after the block is closed on [w2], the writer the body left. *)
Definition entered (w : CodeWriter) : CodeWriter :=
  {| _source := _source w ++ [VStr "{"];
     _buffer := _buffer w;
     _indent := _indent w + 1 |}.

Definition closed (w2 : CodeWriter) : CodeWriter :=
  {| _source := _source w2 ++ [VStr (LF ++ str_mul "    " (_indent w2 - 1) ++ "}")];
     _buffer := _buffer w2;
     _indent := _indent w2 - 1 |}.

(** A writer at depth [d] that holds nothing. *)
Definition blank (d : Z) : CodeWriter :=
  {| _source := []; _buffer := []; _indent := d |}.

(** The writer [w] after an emission that takes a blank writer of the
    same depth to [w0]. *)
Definition extend (w w0 : CodeWriter) : CodeWriter :=
  {| _source := _source w ++ _source w0;
     _buffer := _buffer w;
     _indent := _indent w0 |}.

(** What an emission appends, and whether it raises, depends on the depth
    of the writer it is given and not on what the writer holds already. *)
Definition emission {A : Type} (a : M CodeWriter A) : Prop :=
  forall w,
    a w = (fst (a (blank (_indent w))), extend w (snd (a (blank (_indent w))))).

(** The text a node adds to a writer at depth [d]. *)
Definition text_at (d : Z) (m : Model) : string :=
  source (snd (_write_scad_code m (blank d))).

(** The body of [__str__] on a writer [c] that is given to it. *)
Definition str_with (c : CodeWriter) (self : Model) : result string :=
  match _write_scad_code self c with
  | (Ok _, c) => Ok (str_slice1 (source c))
  | (Raise e, _) => Raise e
  end.

(** The character [c] occurs in [s]. *)
Fixpoint occurs (c : ascii) (s : string) : bool :=
  match s with
  | EmptyString => false
  | String x r => Ascii.eqb x c || occurs c r
  end.

(** The actions of a list run one after the other. *)
Definition in_order {W : Type} (l : list (M W unit)) : M W unit :=
  for_list (fun a => a) l.

(** What a run of [interleave] does, in order: the production of an
    item by the sequence, the call of [f] on an item, the call of
    [inter]. *)
Inductive event (A : Type) : Type :=
| Next (x : A)
| Item (x : A)
| Sep.

Arguments Sep {A}.

Definition log {A : Type} (e : event A) : M (list (event A)) unit :=
  fun tr => (Ok tt, (tr ++ [e])%list).

(** A generator over [l] that records each item it is asked for. *)
Definition logged_seq {A : Type} (l : list A) : iterator (list (event A)) A :=
  map (fun x => log (Next x) ;; ret x) l.

Definition is_call {A : Type} (e : event A) : bool :=
  match e with
  | Next _ => false
  | Item _ | Sep => true
  end.

Definition is_sep {A : Type} (e : event A) : bool :=
  match e with
  | Sep => true
  | Next _ | Item _ => false
  end.

(** The calls of [f] and [inter] in a trace, the number of calls of
    [inter], and the items the sequence was asked for. *)
Definition calls {A : Type} (tr : list (event A)) : list (event A) :=
  filter is_call tr.

Definition separator_calls {A : Type} (tr : list (event A)) : Z :=
  Z.of_nat (length (filter is_sep tr)).

Definition productions {A : Type} (tr : list (event A)) : list A :=
  flat_map (fun e => match e with Next x => [x] | _ => [] end) tr.

(** The parameters of a tree in the order in which the serializer
    formats them: those of the node, then those of each operand. *)
Fixpoint all_params (m : Model) : list (option string * value) :=
  (args m
   ++ match operands m with
      | None => []
      | Some ops => flat_map all_params ops
      end)%list.

(** The exception of the first parameter of a list that cannot be
    formatted. *)
Fixpoint first_error (l : list (option string * value)) : option exn :=
  match l with
  | [] => None
  | arg :: l' =>
      match format_parameter arg with
      | Raise e => Some e
      | Ok _ => first_error l'
      end
  end.

(** What a run that formats the parameters [l] in order returns. *)
Definition outcome (l : list (option string * value)) : result unit :=
  match first_error l with
  | None => Ok tt
  | Some e => Raise e
  end.

(** [level x] for the first [x] of a list that fails, [0] when none does. *)
Definition level_of_first {A : Type} (fails : A -> bool) (level : A -> Z)
  : list A -> Z :=
  fix among (l : list A) : Z :=
    match l with
    | [] => 0
    | x :: l' => if fails x then level x else among l'
    end.

Definition fails (m : Model) : bool :=
  match first_error (all_params m) with
  | Some _ => true
  | None => false
  end.

(** The number of blocks that enclose the first parameter of the tree
    that cannot be formatted; [0] when there is none. *)
Fixpoint open_blocks (m : Model) : Z :=
  match first_error (args m) with
  | Some _ => 0
  | None =>
      match operands m with
      | None => 0
      | Some ops =>
          if existsb fails ops
          then level_of_first fails open_blocks ops + 1
          else 0
      end
  end.

(** The writer [w] with the fragments [l] appended, [k] levels deeper. *)
Definition deepened (w : CodeWriter) (l : list value) (k : Z) : CodeWriter :=
  {| _source := _source w ++ l; _buffer := _buffer w; _indent := _indent w + k |}.

(** A name that is not empty and does not begin with the sigil. *)
Definition plain_name (k : string) : bool :=
  str_truthy k && negb (sigil k).

(** The text of a positional value and of a named one. *)
Definition positional_text (v : value) : string :=
  py_str (lowered v).

Definition named_text (kv : string * value) : string :=
  fst kv ++ "=" ++ py_str (lowered (snd kv)).

(** The text of the parameter list of a call with the positional values
    [vs] and the named values [kws]. *)
Definition call_text (vs : list value) (kws : list (string * value)) : string :=
  join ", " (map positional_text vs ++ map named_text kws).

(** [s] with [pad] inserted after each of its newlines. *)
Fixpoint shift (pad s : string) : string :=
  match s with
  | EmptyString => EmptyString
  | String c r =>
      if Ascii.eqb c "010"
      then String c (pad ++ shift pad r)
      else String c (shift pad r)
  end.

(** The character [c] occurs in no command name and in no parameter text
    of the tree. *)
Fixpoint free_of (c : ascii) (m : Model) : bool :=
  negb (occurs c (command_name m))
  && forallb (fun arg => negb (occurs c (param_text arg))) (args m)
  && match operands m with
     | None => true
     | Some ops => forallb (free_of c) ops
     end.

(** The number of occurrences of [c] in [s]. *)
Fixpoint count (c : ascii) (s : string) : nat :=
  match s with
  | EmptyString => 0%nat
  | String x r => ((if Ascii.eqb x c then 1 else 0) + count c r)%nat
  end.

(** The numbers of nodes of a tree without operands and with them. *)
Fixpoint leaves (m : Model) : nat :=
  match operands m with
  | None => 1%nat
  | Some ops => list_sum (map leaves ops)
  end.

Fixpoint blocks (m : Model) : nat :=
  match operands m with
  | None => 0%nat
  | Some ops => S (list_sum (map blocks ops))
  end.

(** The calls of the collaborators, and collaborators that record
    their calls in the environment and return or raise as [outcomes]
    says.  A temporary directory is known by its name and bytes are a
    string that [decoded] decodes. *)
Inductive call : Type :=
| CTemp
| CWrite (path content : string)
| CRun (argv : list string)
| CLoad (path : string)
| CCleanup (dir : string).

Section Recorded.
Variables Exc Mesh : Type.

Record outcomes : Type := {
  temp_outcome : io_result (exception Exc string) string;
  write_outcome : string -> string -> io_result (exception Exc string) unit;
  run_outcome : list string -> io_result (exception Exc string) string;
  decoded : string -> io_result (exception Exc string) string;
  load_outcome : string -> io_result (exception Exc string) Mesh;
  cleanup_outcome : string -> io_result (exception Exc string) unit
}.

Variable o : outcomes.

Definition recorded {A : Type} (c : call) (r : io_result (exception Exc string) A)
  : IO (list call) Exc string A :=
  fun tr => (r, (tr ++ [c])%list).

Definition recorded_scad_eval (scad_code : string)
  : IO (list call) Exc string Mesh :=
  scad_eval
    (recorded CTemp (temp_outcome o))
    (fun d => d)
    (fun d => recorded (CCleanup d) (cleanup_outcome o d))
    (fun path content => recorded (CWrite path content) (write_outcome o path content))
    (fun argv => recorded (CRun argv) (run_outcome o argv))
    (decoded o)
    (fun path => recorded (CLoad path) (load_outcome o path))
    scad_code.

Definition recorded_render (self : Model) : IO (list call) Exc string Mesh :=
  render
    (recorded CTemp (temp_outcome o))
    (fun d => d)
    (fun d => recorded (CCleanup d) (cleanup_outcome o d))
    (fun path content => recorded (CWrite path content) (write_outcome o path content))
    (fun argv => recorded (CRun argv) (run_outcome o argv))
    (decoded o)
    (fun path => recorded (CLoad path) (load_outcome o path))
    self.

(** The calls between the creation of the directory [d] and its
    cleanup, when all of them are made. *)
Definition guarded_calls (d scad_code : string) : list call :=
  [CWrite (d ++ "/_.scad") scad_code;
   CRun ["openscad"; "-o"; d ++ "/_.stl"; d ++ "/_.scad"];
   CLoad (d ++ "/_.stl")].
End Recorded.

(** The fragments end with an opening parenthesis or with a separator of
    parameters. *)
Definition stopped (frags : list value) : Prop :=
  exists p, frags = (p ++ [VStr "("])%list \/ frags = (p ++ [VStr ", "])%list.

(** The named parameters of a call that reach the [kwargs] of a
    function [f]: their names are distinct and none is the name of a
    parameter of [f] or of [Model.__init__].  Python binds such a name to
    that parameter, or refuses the call with [TypeError]. *)
Fixpoint distinct (l : list string) : bool :=
  match l with
  | [] => true
  | x :: l' => negb (existsb (String.eqb x) l') && distinct l'
  end.

Definition keywords (params : list string) (kwargs : list (string * value))
  : bool :=
  distinct (map fst kwargs)
  && forallb (fun kv => negb (existsb (String.eqb (fst kv)) params)) kwargs.

(** The parameters of [Model.__init__] that have a name. *)
Definition init_params : list string := ["self"; "command_name"; "operands"].

(** The node of a model: its operands are lists at every level. *)
Fixpoint as_node (m : Model) : Node :=
  {| node_command_name := command_name m;
     node_args := args m;
     node_operands := match operands m with
                      | None => None
                      | Some ops => Some (OList (map as_node ops))
                      end |}.

(** A computation on the world that does what a computation on the
    writer does, and leaves the store alone. *)
Definition tracks {A : Type} (a' : M world A) (a : M CodeWriter A) : Prop :=
  forall s w, a' (s, w) = (fst (a w), (s, snd (a w))).

(** * Properties *)

(** ** Strings and lists *)

Lemma append_nil_r (s : string) : s ++ "" = s.
Proof. induction s as [|c s IH]; simpl; [reflexivity | now rewrite IH]. Qed.

Lemma append_assoc (a b c : string) : (a ++ b) ++ c = a ++ (b ++ c).
Proof. induction a as [|x a IH]; simpl; [reflexivity | now rewrite IH]. Qed.

(** Texts built by [++] are compared after reassociating to the right. *)
Ltac str_norm :=
  unfold LF; repeat first [rewrite append_assoc | rewrite append_nil_r | progress simpl].

Lemma join_empty_cons (x : string) (l : list string) :
  join "" (x :: l) = x ++ join "" l.
Proof.
  unfold join. destruct l as [|y l]; simpl.
  - now rewrite append_nil_r.
  - reflexivity.
Qed.

Lemma join_empty_app (l1 l2 : list string) :
  join "" (l1 ++ l2) = join "" l1 ++ join "" l2.
Proof.
  induction l1 as [|x l1 IH].
  - reflexivity.
  - rewrite <- app_comm_cons, !join_empty_cons, IH. now rewrite append_assoc.
Qed.

(** Writing the fragments one by one, with the separator between them,
    gives the text of [sep.join]. *)
Lemma join_intersperse (sep : string) (l : list string) :
  join "" (intersperse sep l) = join sep l.
Proof.
  induction l as [|x l IH].
  - reflexivity.
  - destruct l as [|y l].
    + reflexivity.
    + change (intersperse sep (x :: y :: l))
        with (x :: sep :: intersperse sep (y :: l)).
      rewrite !join_empty_cons, IH. reflexivity.
Qed.

Lemma map_intersperse {A B : Type} (f : A -> B) (sep : A) (l : list A) :
  map f (intersperse sep l) = intersperse (f sep) (map f l).
Proof.
  induction l as [|x l IH].
  - reflexivity.
  - destruct l as [|y l].
    + reflexivity.
    + change (intersperse sep (x :: y :: l))
        with (x :: sep :: intersperse sep (y :: l)).
      change (map f (x :: sep :: intersperse sep (y :: l)))
        with (f x :: f sep :: map f (intersperse sep (y :: l))).
      rewrite IH. reflexivity.
Qed.

Lemma source_appended (w : CodeWriter) (l : list value) :
  source (appended w l) = source w ++ join "" (map py_str l).
Proof. unfold source. simpl. now rewrite map_app, join_empty_app. Qed.

Lemma source_extend (w w0 : CodeWriter) :
  source (extend w w0) = source w ++ source w0.
Proof. unfold source. simpl. now rewrite map_app, join_empty_app. Qed.

Lemma source_entered (w : CodeWriter) :
  source (entered w) = source w ++ "{".
Proof. unfold source. simpl. now rewrite map_app, join_empty_app. Qed.

Lemma source_closed (w : CodeWriter) :
  source (closed w) = source w ++ LF ++ str_mul "    " (_indent w - 1) ++ "}".
Proof.
  unfold source. simpl. rewrite map_app, join_empty_app. reflexivity.
Qed.

Lemma appended_appended (w : CodeWriter) (l1 l2 : list value) :
  appended (appended w l1) l2 = appended w (l1 ++ l2).
Proof. unfold appended. simpl. now rewrite app_assoc. Qed.

Lemma intersperse_cons {A : Type} (sep x : A) (l : list A) :
  intersperse sep (x :: l) = x :: flat_map (fun y => [sep; y]) l.
Proof.
  revert x. induction l as [|y l IH]; intros x.
  - reflexivity.
  - change (intersperse sep (x :: y :: l))
      with (x :: sep :: intersperse sep (y :: l)).
    now rewrite IH.
Qed.

(** Induction on a model with the hypothesis for every operand. *)
Lemma Model_ind_ops (P : Model -> Prop) :
  (forall n a, P (mkModel n a None)) ->
  (forall n a ops, Forall P ops -> P (mkModel n a (Some ops))) ->
  forall m, P m.
Proof.
  intros Hleaf Hnode.
  fix IH 1.
  intros [n a [ops|]].
  - apply Hnode. induction ops as [|op ops IHops].
    + constructor.
    + constructor; [apply IH | exact IHops].
  - apply Hleaf.
Qed.

(** ** The monad *)

Lemma bind_ok {W A B : Type} (m : M W A) (k : A -> M W B) (w w' : W) (a : A) :
  m w = (Ok a, w') -> bind m k w = k a w'.
Proof. unfold bind. now intros ->. Qed.

Lemma bind_raise {W A B : Type} (m : M W A) (k : A -> M W B) (w w' : W) (e : exn) :
  m w = (Raise e, w') -> bind m k w = (Raise e, w').
Proof. unfold bind. now intros ->. Qed.

(** The first item of [interleave]: when it is produced and emitted, the
    rest is the loop over what is left. *)
Lemma interleave_first {W A : Type} (inter : M W unit) (f : A -> M W unit)
    (g : M W A) (it : iterator W A) (w w1 w2 : W) (x : A) :
  g w = (Ok x, w1) ->
  f x w1 = (Ok tt, w2) ->
  interleave inter f (g :: it) w = for_in it (fun x => inter ;; f x) w2.
Proof.
  intros Hg Hf. unfold interleave. simpl py_next.
  rewrite bind_ok with (a := (x, it)) (w' := w1).
  - simpl fst. simpl snd.
    now rewrite bind_ok with (a := tt) (w' := w2) by exact Hf.
  - now rewrite bind_ok with (a := x) (w' := w1) by exact Hg.
Qed.

Lemma interleave_first_raise {W A : Type} (inter : M W unit) (f : A -> M W unit)
    (g : M W A) (it : iterator W A) (w w1 w2 : W) (x : A) (e : exn) :
  g w = (Ok x, w1) ->
  f x w1 = (Raise e, w2) ->
  e <> StopIteration ->
  interleave inter f (g :: it) w = (Raise e, w2).
Proof.
  intros Hg Hf He. unfold interleave. simpl py_next.
  rewrite bind_ok with (a := (x, it)) (w' := w1).
  - simpl fst. simpl snd.
    rewrite bind_raise with (e := e) (w' := w2) by exact Hf.
    destruct e; [congruence | reflexivity | reflexivity].
  - now rewrite bind_ok with (a := x) (w' := w1) by exact Hg.
Qed.

Lemma bind_assoc {W A B C : Type} (m : M W A) (k : A -> M W B) (h : B -> M W C)
    (w : W) :
  bind (bind m k) h w = bind m (fun x => bind (k x) h) w.
Proof. unfold bind. destruct (m w) as [[a|e] w']; reflexivity. Qed.

(** The loop of [interleave] over a list runs [inter] and [f] in turn. *)
Lemma loop_in_order {W A : Type} (inter : M W unit) (f : A -> M W unit)
    (l : list A) (w : W) :
  for_in (iter_list W l) (fun x => inter ;; f x) w
  = in_order (flat_map (fun a => [inter; a]) (map f l)) w.
Proof.
  revert w. induction l as [|x l IH]; intros w.
  - reflexivity.
  - change (for_in (iter_list W (x :: l)) (fun x => inter ;; f x) w)
      with (((inter ;; f x) ;; for_in (iter_list W l) (fun x => inter ;; f x)) w).
    change (in_order (flat_map (fun a => [inter; a]) (map f (x :: l))) w)
      with ((inter ;; (f x ;; in_order (flat_map (fun a => [inter; a]) (map f l)))) w).
    rewrite bind_assoc. unfold bind at 1. unfold bind at 3.
    destruct (inter w) as [[[]|e] w1]; [|reflexivity].
    unfold bind. destruct (f x w1) as [[[]|e] w2]; [apply IH | reflexivity].
Qed.

(** [interleave] over a list runs [f x1], [inter], [f x2], ..., [f xn]
    in that order, unless the first call of [f] raises [StopIteration],
    which the [try] around it takes for the end of the sequence. *)
Lemma interleave_in_order {W A : Type} (inter : M W unit) (f : A -> M W unit)
    (l : list A) (w : W) :
  (forall x, hd_error l = Some x -> fst (f x w) <> Raise StopIteration) ->
  interleave inter f (iter_list W l) w
  = in_order (intersperse inter (map f l)) w.
Proof.
  destruct l as [|x l]; intros H.
  - reflexivity.
  - specialize (H x eq_refl).
    change (map f (x :: l)) with (f x :: map f l). rewrite intersperse_cons.
    change (iter_list W (x :: l)) with (ret x :: iter_list W l).
    change (in_order (f x :: flat_map (fun a => [inter; a]) (map f l)) w)
      with ((f x ;; in_order (flat_map (fun a => [inter; a]) (map f l))) w).
    destruct (f x w) as [[[]|e] w1] eqn:E.
    + rewrite interleave_first with (x := x) (w1 := w) (w2 := w1)
        by (reflexivity || exact E).
      rewrite bind_ok with (a := tt) (w' := w1) by exact E.
      apply loop_in_order.
    + rewrite interleave_first_raise with (x := x) (w1 := w) (w2 := w1) (e := e);
        try (reflexivity || exact E).
      * now rewrite bind_raise with (e := e) (w' := w1) by exact E.
      * intros ->. now apply H.
Qed.

(** ** Emission reads the indent depth only *)

Lemma extend_blank (w : CodeWriter) :
  extend w (blank (_indent w)) = w.
Proof. destruct w as [s b i]. unfold extend, blank. simpl. now rewrite app_nil_r. Qed.

Lemma extend_extend (w wa wb : CodeWriter) :
  extend (extend w wa) wb = extend w (extend wa wb).
Proof. unfold extend. simpl. now rewrite app_assoc. Qed.

Lemma emission_ret {A : Type} (x : A) : emission (ret x).
Proof. intros w. unfold ret. simpl. now rewrite extend_blank. Qed.

Lemma emission_lift {A : Type} (r : result A) : emission (lift r).
Proof. intros w. unfold lift. simpl. now rewrite extend_blank. Qed.

Lemma emission_write (text : value) : emission (write text).
Proof. intros w. reflexivity. Qed.

Lemma emission_fill (text : string) : emission (fill text).
Proof. intros w. reflexivity. Qed.

Lemma emission_add_indent (d : Z) : emission (add_indent d).
Proof. intros w. unfold add_indent, extend. simpl. now rewrite app_nil_r. Qed.

Lemma emission_bind {A B : Type} (a : M CodeWriter A) (k : A -> M CodeWriter B) :
  emission a -> (forall x, emission (k x)) -> emission (bind a k).
Proof.
  intros Ha Hk w. unfold bind. rewrite (Ha w).
  destruct (a (blank (_indent w))) as [[x|e] wa]; simpl.
  - rewrite (Hk x (extend w wa)), (Hk x wa). simpl.
    now rewrite extend_extend.
  - reflexivity.
Qed.

Create HintDb emission.
#[local] Hint Resolve emission_ret emission_lift emission_write emission_fill
  emission_add_indent emission_bind : emission.

Lemma emission_block (body : M CodeWriter unit) :
  emission body -> emission (block body).
Proof. intros Hb. unfold block. auto 10 with emission. Qed.

Lemma emission_delimit (start end_ : string) (body : M CodeWriter unit) :
  emission body -> emission (delimit start end_ body).
Proof. intros Hb. unfold delimit. auto 10 with emission. Qed.

Lemma emission_for_list {A : Type} (body : A -> M CodeWriter unit) (l : list A) :
  Forall (fun x => emission (body x)) l -> emission (for_list body l).
Proof.
  induction 1 as [|x l Hx _ IH]; simpl.
  - apply emission_ret.
  - apply emission_bind; auto.
Qed.

Lemma emission_for_in {A : Type} (it : iterator CodeWriter A) (body : A -> M CodeWriter unit) :
  Forall emission it -> (forall x, emission (body x)) -> emission (for_in it body).
Proof.
  intros Hit Hbody. induction Hit as [|g it Hg _ IH]; simpl.
  - apply emission_ret.
  - intros w. rewrite (Hg w).
    destruct (g (blank (_indent w))) as [[x|e] wg]; simpl.
    + assert (Hk : emission (body x ;; for_in it body))
        by (apply emission_bind; auto).
      rewrite (Hk (extend w wg)), (Hk wg). simpl. now rewrite extend_extend.
    + destruct e; reflexivity.
Qed.

Lemma emission_iter_list {A : Type} (l : list A) :
  Forall emission (iter_list CodeWriter l).
Proof.
  unfold iter_list. induction l as [|x l IH]; simpl; constructor.
  - apply emission_ret.
  - exact IH.
Qed.

Lemma emission_interleave {A : Type} (inter : M CodeWriter unit)
    (f : A -> M CodeWriter unit) (seq : iterator CodeWriter A) :
  emission inter -> (forall x, emission (f x)) -> Forall emission seq ->
  emission (interleave inter f seq).
Proof.
  intros Hinter Hf Hseq.
  assert (Hfirst : emission (xi <- py_next seq ;; f (fst xi) ;; ret (snd xi))).
  { apply emission_bind.
    - destruct Hseq as [|g it Hg Hit]; simpl.
      + intros w. unfold raise. simpl. now rewrite extend_blank.
      + auto with emission.
    - intros xi. auto with emission. }
  intros w. unfold interleave. rewrite (Hfirst w).
  destruct ((xi <- py_next seq ;; f (fst xi) ;; ret (snd xi)) (blank (_indent w)))
    as [[seq'|e] w1] eqn:E1; simpl.
  - assert (Hseq' : Forall emission seq').
    { destruct Hseq as [|g it Hg Hit]; simpl in E1.
      - discriminate.
      - unfold bind, ret in E1.
        destruct (g (blank (_indent w))) as [[x|e] wg]; [|discriminate].
        simpl in E1. destruct (f x wg) as [[[]|e] wf]; [|discriminate].
        now inversion E1; subst. }
    assert (Hloop : emission (for_in seq' (fun x => inter ;; f x)))
      by (apply emission_for_in; auto with emission).
    rewrite (Hloop (extend w w1)), (Hloop w1). simpl. now rewrite extend_extend.
  - destruct e; reflexivity.
Qed.

(** The serializer is an emission. *)
Lemma emission_write_scad_code (m : Model) : emission (_write_scad_code m).
Proof.
  induction m as [n a|n a ops IH] using Model_ind_ops; simpl.
  - apply emission_bind; [apply emission_fill | intros _].
    apply emission_bind; [|intros _; apply emission_write].
    apply emission_delimit, emission_interleave; auto with emission.
    apply emission_iter_list.
  - apply emission_bind; [apply emission_fill | intros _].
    apply emission_bind.
    + apply emission_delimit, emission_interleave; auto with emission.
      apply emission_iter_list.
    + intros _. apply emission_block, emission_for_list. exact IH.
Qed.

(** ** The parameter list *)

Local Abbreviation write_param :=
  (fun arg => text <- lift (format_parameter arg) ;; write text).

Lemma format_parameter_not_stop (arg : option string * value) :
  format_parameter arg <> Raise StopIteration.
Proof.
  destruct arg as [[[|c k]|] v]; destruct v as [[|]| | | |]; simpl;
    try discriminate; destruct (Ascii.eqb c "_"); simpl; discriminate.
Qed.

Lemma write_param_ok (arg : option string * value) (w : CodeWriter) :
  param_ok arg = true ->
  write_param arg w = (Ok tt, appended w [formatted arg]).
Proof.
  unfold param_ok, formatted, bind, lift.
  destruct (format_parameter arg); [reflexivity | discriminate].
Qed.

Lemma write_param_fail (arg : option string * value) (w : CodeWriter) :
  param_ok arg = false ->
  exists e, write_param arg w = (Raise e, w) /\ e <> StopIteration.
Proof.
  unfold param_ok, bind, lift. intros H.
  pose proof (format_parameter_not_stop arg) as Hstop.
  destruct (format_parameter arg) as [v|e]; [discriminate|].
  exists e. split; [reflexivity | congruence].
Qed.

Lemma params_loop_ok (l : list (option string * value)) (w : CodeWriter) :
  forallb param_ok l = true ->
  for_in (iter_list CodeWriter l) (fun x => write (VStr ", ") ;; write_param x) w
  = (Ok tt, appended w (flat_map (fun x => [VStr ", "; formatted x]) l)).
Proof.
  revert w. induction l as [|x l IH]; intros w H; simpl in *.
  - unfold ret, appended. simpl. rewrite app_nil_r. now destruct w.
  - apply andb_prop in H. destruct H as [Hx Hl].
    rewrite bind_ok with (w' := appended w [VStr ", "; formatted x]) (a := tt).
    + rewrite IH by exact Hl. now rewrite appended_appended.
    + rewrite bind_ok with (w' := appended w [VStr ", "]) (a := tt) by reflexivity.
      rewrite write_param_ok by exact Hx. now rewrite appended_appended.
Qed.

Lemma params_loop_fail (l : list (option string * value)) (w : CodeWriter) :
  forallb param_ok l = false ->
  exists e,
    fst (for_in (iter_list CodeWriter l)
           (fun x => write (VStr ", ") ;; write_param x) w) = Raise e.
Proof.
  revert w. induction l as [|x l IH]; intros w H; simpl in *.
  - discriminate.
  - destruct (param_ok x) eqn:Hx; simpl in H.
    + rewrite bind_ok with (w' := appended w [VStr ", "; formatted x]) (a := tt).
      * apply IH, H.
      * rewrite bind_ok with (w' := appended w [VStr ", "]) (a := tt) by reflexivity.
        rewrite write_param_ok by exact Hx. now rewrite appended_appended.
    + destruct (write_param_fail x (appended w [VStr ", "]) Hx) as (e & He & _).
      exists e.
      rewrite bind_raise with (w' := appended w [VStr ", "]) (e := e); [reflexivity|].
      rewrite bind_ok with (w' := appended w [VStr ", "]) (a := tt) by reflexivity.
      exact He.
Qed.

Lemma params_ok (l : list (option string * value)) (w : CodeWriter) :
  forallb param_ok l = true ->
  interleave (write (VStr ", ")) write_param (iter_list CodeWriter l) w
  = (Ok tt, appended w (intersperse (VStr ", ") (map formatted l))).
Proof.
  destruct l as [|x l]; intros H; simpl in H.
  - unfold appended. simpl. rewrite app_nil_r. now destruct w.
  - apply andb_prop in H. destruct H as [Hx Hl].
    unfold interleave, iter_list. simpl py_next.
    erewrite bind_ok.
    2:{ erewrite bind_ok by reflexivity. reflexivity. }
    simpl fst. simpl snd.
    erewrite bind_ok.
    2:{ apply write_param_ok, Hx. }
    unfold ret at 1.
    fold (iter_list CodeWriter l). rewrite params_loop_ok by exact Hl.
    rewrite appended_appended. simpl map. rewrite intersperse_cons.
    do 2 f_equal. simpl. f_equal.
    clear. induction l as [|y l IH]; simpl; [reflexivity | now rewrite IH].
Qed.

Lemma params_fail (l : list (option string * value)) (w : CodeWriter) :
  forallb param_ok l = false ->
  exists e,
    fst (interleave (write (VStr ", ")) write_param (iter_list CodeWriter l) w)
    = Raise e.
Proof.
  destruct l as [|x l]; intros H; simpl in H.
  - discriminate.
  - unfold interleave, iter_list. simpl py_next.
    erewrite bind_ok.
    2:{ erewrite bind_ok by reflexivity. reflexivity. }
    simpl fst. simpl snd.
    destruct (param_ok x) eqn:Hx; simpl in H.
    + erewrite bind_ok.
      2:{ apply write_param_ok, Hx. }
      unfold ret at 1.
      fold (iter_list CodeWriter l). apply params_loop_fail, H.
    + destruct (write_param_fail x w Hx) as (e & He & Hstop).
      erewrite bind_raise by exact He.
      exists e. destruct e; [congruence | reflexivity | reflexivity].
Qed.

(** ** One node *)

Lemma write_scad_code_head (n : string) (a : list (option string * value))
    (o : option (list Model)) (w : CodeWriter) :
  forallb param_ok a = true ->
  _write_scad_code (mkModel n a o) w
  = match o with
    | None => write (VStr ";")
    | Some ops => block (for_list _write_scad_code ops)
    end (appended w (head_frags (_indent w) n a)).
Proof.
  intros Ha. simpl.
  rewrite bind_ok with (a := tt)
    (w' := appended w [VStr (LF ++ str_mul "    " (_indent w) ++ n)])
    by reflexivity.
  rewrite bind_ok with (a := tt) (w' := appended w (head_frags (_indent w) n a)).
  - destruct o; reflexivity.
  - unfold delimit.
    rewrite bind_ok with (a := tt)
      (w' := appended w [VStr (LF ++ str_mul "    " (_indent w) ++ n); VStr "("]).
    2:{ unfold write, appended. simpl. now rewrite <- app_assoc. }
    rewrite bind_ok with (a := tt)
      (w' := appended w ([VStr (LF ++ str_mul "    " (_indent w) ++ n); VStr "("]
                         ++ intersperse (VStr ", ") (map formatted a))).
    2:{ rewrite params_ok by exact Ha. now rewrite appended_appended. }
    unfold write, appended, head_frags. simpl. now rewrite <- !app_assoc.
Qed.

Lemma write_scad_code_head_fail (n : string) (a : list (option string * value))
    (o : option (list Model)) (w : CodeWriter) :
  forallb param_ok a = false ->
  exists e, fst (_write_scad_code (mkModel n a o) w) = Raise e.
Proof.
  intros Ha. simpl.
  rewrite bind_ok with (a := tt)
    (w' := appended w [VStr (LF ++ str_mul "    " (_indent w) ++ n)])
    by reflexivity.
  unfold delimit.
  set (w1 := appended (appended w [VStr (LF ++ str_mul "    " (_indent w) ++ n)])
               [VStr "("]).
  destruct (params_fail a w1 Ha) as [e He].
  destruct (interleave (write (VStr ", ")) write_param (iter_list CodeWriter a) w1)
    as [r w2] eqn:E.
  simpl in He. subst r. exists e.
  rewrite bind_raise with (e := e) (w' := w2); [reflexivity|].
  rewrite bind_ok with (a := tt) (w' := w1) by reflexivity.
  rewrite bind_raise with (e := e) (w' := w2); [reflexivity | exact E].
Qed.

(** ** Blocks *)

Lemma block_ok (body : M CodeWriter unit) (w w2 : CodeWriter) :
  body (entered w) = (Ok tt, w2) ->
  block body w = (Ok tt, closed w2).
Proof.
  intros Hb. unfold block.
  rewrite bind_ok with (a := tt) (w' := appended w [VStr "{"]) by reflexivity.
  rewrite bind_ok with (a := tt) (w' := entered w) by reflexivity.
  rewrite bind_ok with (a := tt) (w' := w2) by exact Hb.
  reflexivity.
Qed.

Lemma block_raise (body : M CodeWriter unit) (w w2 : CodeWriter) (e : exn) :
  body (entered w) = (Raise e, w2) ->
  block body w = (Raise e, w2).
Proof.
  intros Hb. unfold block.
  rewrite bind_ok with (a := tt) (w' := appended w [VStr "{"]) by reflexivity.
  rewrite bind_ok with (a := tt) (w' := entered w) by reflexivity.
  rewrite bind_raise with (e := e) (w' := w2) by exact Hb.
  reflexivity.
Qed.

Lemma closed_entered (w : CodeWriter) (frags : list value) :
  closed (appended (entered w) frags)
  = appended w ([VStr "{"] ++ frags
                ++ [VStr (LF ++ str_mul "    " (_indent w) ++ "}")]).
Proof.
  unfold closed, appended, entered. simpl.
  rewrite Z.add_simpl_r. f_equal. now rewrite <- !app_assoc.
Qed.

(** ** The whole tree *)

Lemma for_list_ok {A : Type} (body : A -> M CodeWriter unit) (l : list A) :
  Forall (fun x => forall w, exists frags, body x w = (Ok tt, appended w frags)) l ->
  forall w, exists frags, for_list body l w = (Ok tt, appended w frags).
Proof.
  induction 1 as [|x l Hx _ IH]; intros w; simpl.
  - exists []. unfold ret, appended. rewrite app_nil_r. now destruct w.
  - destruct (Hx w) as [f1 H1]. destruct (IH (appended w f1)) as [f2 H2].
    exists (f1 ++ f2)%list.
    rewrite bind_ok with (a := tt) (w' := appended w f1) by exact H1.
    now rewrite H2, appended_appended.
Qed.

Lemma for_list_fail (body : Model -> M CodeWriter unit) (l : list Model) :
  Forall (fun x =>
            (model_ok x = true ->
             forall w, exists frags, body x w = (Ok tt, appended w frags))
            /\ (model_ok x = false ->
                forall w, exists e, fst (body x w) = Raise e)) l ->
  forallb model_ok l = false ->
  forall w, exists e w', for_list body l w = (Raise e, w').
Proof.
  induction 1 as [|x l [Hok Hfail] _ IH]; intros Hl w; simpl in *.
  - discriminate.
  - destruct (model_ok x) eqn:Hx; simpl in Hl.
    + destruct (Hok eq_refl w) as [f1 H1].
      destruct (IH Hl (appended w f1)) as (e & w' & H2).
      exists e, w'.
      now rewrite bind_ok with (a := tt) (w' := appended w f1) by exact H1.
    + destruct (Hfail eq_refl w) as [e He].
      destruct (body x w) as [r w'] eqn:E. simpl in He. subst r.
      exists e, w'. now rewrite bind_raise with (e := e) (w' := w').
Qed.

(** [model_ok] decides whether the serializer returns; when it does, the
    writer has the same depth and buffer as before and more fragments. *)
Lemma write_scad_code_result (m : Model) :
  (model_ok m = true ->
   forall w, exists frags, _write_scad_code m w = (Ok tt, appended w frags))
  /\ (model_ok m = false ->
      forall w, exists e, fst (_write_scad_code m w) = Raise e).
Proof.
  induction m as [n a|n a ops IH] using Model_ind_ops.
  - unfold model_ok. simpl args. simpl operands. rewrite andb_true_r. split.
    + intros Ha w. rewrite write_scad_code_head by exact Ha.
      eexists. unfold write. rewrite <- appended_appended. reflexivity.
    + intros Ha w. now apply write_scad_code_head_fail.
  - change (model_ok (mkModel n a (Some ops)))
      with (forallb param_ok a && forallb model_ok ops)%bool.
    split.
    + intros H w. apply andb_prop in H. destruct H as [Ha Hops].
      rewrite write_scad_code_head by exact Ha.
      set (w1 := appended w (head_frags (_indent w) n a)).
      assert (Hall : Forall (fun x => forall w, exists frags,
                        _write_scad_code x w = (Ok tt, appended w frags)) ops).
      { rewrite Forall_forall in IH |- *. intros x Hin.
        apply (IH x Hin). rewrite forallb_forall in Hops. now apply Hops. }
      destruct (for_list_ok _ Hall (entered w1)) as [frags Hf].
      rewrite block_ok with (w2 := appended (entered w1) frags) by exact Hf.
      rewrite closed_entered. unfold w1. rewrite appended_appended.
      eexists. reflexivity.
    + intros H w. destruct (forallb param_ok a) eqn:Ha; simpl in H.
      * rewrite write_scad_code_head by exact Ha.
        set (w1 := appended w (head_frags (_indent w) n a)).
        destruct (for_list_fail _ IH H (entered w1)) as (e & w' & Hf).
        exists e. now rewrite block_raise with (e := e) (w2 := w').
      * now apply write_scad_code_head_fail.
Qed.

Lemma write_scad_code_ok (m : Model) (w : CodeWriter) :
  model_ok m = true ->
  exists frags, _write_scad_code m w = (Ok tt, appended w frags).
Proof. intros H. now apply (proj1 (write_scad_code_result m)). Qed.

Lemma write_scad_code_fail (m : Model) (w : CodeWriter) :
  model_ok m = false ->
  exists e, fst (_write_scad_code m w) = Raise e.
Proof. intros H. now apply (proj2 (write_scad_code_result m)). Qed.

(** A node that serializes adds [text_at] of its depth to the source. *)
Lemma write_scad_code_text (m : Model) (w : CodeWriter) :
  model_ok m = true ->
  exists w', _write_scad_code m w = (Ok tt, w')
             /\ _indent w' = _indent w
             /\ _buffer w' = _buffer w
             /\ source w' = source w ++ text_at (_indent w) m.
Proof.
  intros H. destruct (write_scad_code_ok m w H) as [frags Hf].
  exists (appended w frags). repeat split; try assumption.
  unfold text_at.
  pose proof (emission_write_scad_code m w) as He. rewrite Hf in He.
  apply (f_equal snd) in He. simpl in He. rewrite He at 1.
  apply source_extend.
Qed.

(** ** The text of a node *)

Lemma head_text (d : Z) (n : string) (a : list (option string * value)) :
  join "" (map py_str (head_frags d n a))
  = LF ++ str_mul "    " d ++ n ++ "(" ++ join ", " (map param_text a) ++ ")".
Proof.
  unfold head_frags. rewrite !map_app, !join_empty_app.
  rewrite map_intersperse, join_intersperse, map_map.
  change (fun x => py_str (formatted x)) with param_text.
  now str_norm.
Qed.

Lemma text_at_leaf (d : Z) (n : string) (a : list (option string * value)) :
  forallb param_ok a = true ->
  text_at d (mkModel n a None)
  = LF ++ str_mul "    " d ++ n ++ "(" ++ join ", " (map param_text a) ++ ");".
Proof.
  intros Ha. unfold text_at. rewrite write_scad_code_head by exact Ha.
  unfold write. simpl snd.
  change (source (appended (appended (blank d) (head_frags d n a)) [VStr ";"])
          = LF ++ str_mul "    " d ++ n ++ "(" ++ join ", " (map param_text a) ++ ");").
  rewrite !source_appended, head_text. now str_norm.
Qed.

Lemma for_list_text (ops : list Model) (w : CodeWriter) :
  forallb model_ok ops = true ->
  exists w',
    for_list _write_scad_code ops w = (Ok tt, w')
    /\ _indent w' = _indent w
    /\ _buffer w' = _buffer w
    /\ source w' = source w ++ join "" (map (text_at (_indent w)) ops).
Proof.
  revert w. induction ops as [|op ops IH]; intros w H; simpl in H.
  - exists w. repeat split. simpl. now rewrite append_nil_r.
  - apply andb_prop in H. destruct H as [Hop Hops].
    destruct (write_scad_code_text op w Hop) as (w1 & H1 & Hi1 & Hb1 & Hs1).
    destruct (IH w1 Hops) as (w2 & H2 & Hi2 & Hb2 & Hs2).
    exists w2.
    change (for_list _write_scad_code (op :: ops))
      with (_write_scad_code op ;; for_list _write_scad_code ops).
    rewrite bind_ok with (a := tt) (w' := w1) by exact H1.
    repeat split; try congruence.
    simpl map. rewrite Hs2, Hs1, Hi1, join_empty_cons. now rewrite append_assoc.
Qed.

Lemma text_at_node (d : Z) (n : string) (a : list (option string * value))
    (ops : list Model) :
  model_ok (mkModel n a (Some ops)) = true ->
  text_at d (mkModel n a (Some ops))
  = LF ++ str_mul "    " d ++ n ++ "(" ++ join ", " (map param_text a) ++ ")"
    ++ "{" ++ join "" (map (text_at (d + 1)) ops)
    ++ LF ++ str_mul "    " d ++ "}".
Proof.
  change (model_ok (mkModel n a (Some ops)))
    with (forallb param_ok a && forallb model_ok ops)%bool.
  intros H. apply andb_prop in H. destruct H as [Ha Hops].
  unfold text_at. rewrite write_scad_code_head by exact Ha.
  simpl (_indent (blank d)).
  set (w1 := appended (blank d) (head_frags d n a)).
  destruct (for_list_text ops (entered w1) Hops) as (w2 & H2 & Hi2 & Hb2 & Hs2).
  rewrite block_ok with (w2 := w2) by exact H2.
  change (snd (Ok tt, closed w2)) with (closed w2).
  rewrite source_closed, Hs2, Hi2, source_entered.
  change (_indent (entered w1)) with (d + 1).
  unfold w1. rewrite source_appended, head_text.
  change (source (blank d)) with "".
  rewrite Z.add_simpl_r. now str_norm.
Qed.

(** ** format_parameter *)

Lemma format_parameter_unnamed (v : value) :
  format_parameter (None, v) = Ok (lowered v).
Proof. destruct v as [[|]| | | |]; reflexivity. Qed.

Lemma format_parameter_named (k : string) (v : value) :
  str_truthy k = true -> sigil k = false ->
  format_parameter (Some k, v) = Ok (VStr (k ++ "=" ++ py_str (lowered v))).
Proof.
  destruct k as [|c k]; [discriminate|]. simpl. intros _ Hc.
  destruct v as [[|]| | | |]; simpl; rewrite Hc; reflexivity.
Qed.

Lemma format_parameter_sigil_str (k : string) (v : value) (s : string) :
  sigil k = true -> lowered v = VStr s ->
  format_parameter (Some k, v) = Ok (VStr ("$" ++ str_slice1 s ++ "=" ++ s)).
Proof.
  destruct k as [|c k]; [discriminate|]. simpl. intros Hc Hv.
  destruct v as [[|]| | | |]; simpl in Hv; try discriminate;
    inversion Hv; subst; simpl; rewrite Hc; reflexivity.
Qed.

Lemma format_parameter_sigil_other (k : string) (v : value) :
  sigil k = true ->
  match lowered v with VStr _ => False | _ => True end ->
  format_parameter (Some k, v) = Raise TypeError.
Proof.
  destruct k as [|c k]; [discriminate|]. simpl. intros Hc Hv.
  destruct v as [[|]| | | |]; simpl in Hv; try contradiction;
    simpl; rewrite Hc; reflexivity.
Qed.

Lemma format_parameter_empty_name (v : value) :
  format_parameter (Some "", v) = Raise IndexError.
Proof. destruct v as [[|]| | | |]; reflexivity. Qed.

(** C1 as it is worded fails: for the parameter [_fn="_fn"] the function
    returns the text [$fn=_fn], a [name=value] pair whose name was built
    from the value, and not the bare reference [$fn]. *)
Lemma format_parameter_sigil_counterexample :
  format_parameter (Some "_fn", VStr "_fn") = Ok (VStr "$fn=_fn")
  /\ format_parameter (Some "_fn", VStr "_fn")
     <> Ok (VStr ("$" ++ str_slice1 "_fn")).
Proof. split; [reflexivity | discriminate]. Qed.

(** C1, amended: for a parameter whose name begins with [_] and whose
    value is a string [s] (or a boolean, which is first rewritten to the
    string [true] or [false]), [format_parameter] returns [$] followed by
    [s[1:]], then [=], then [s].  The name the caller gave does not
    appear in the result. *)
Theorem format_parameter_sigil (k : string) (v : value) (s : string) :
  sigil k = true ->
  lowered v = VStr s ->
  format_parameter (Some k, v) = Ok (VStr ("$" ++ str_slice1 s ++ "=" ++ s)).
Proof. apply format_parameter_sigil_str. Qed.

Lemma format_parameter_sigil_witness :
  sigil "_fn" = true
  /\ lowered (VBool true) = VStr "true"
  /\ format_parameter (Some "_fn", VBool true) = Ok (VStr "$rue=true").
Proof.
  split; [reflexivity | split; [reflexivity|]].
  apply (format_parameter_sigil "_fn" (VBool true) (s := "true"));
    reflexivity.
Defined.

(** C6: a parameter whose value is [True] or [False] is rendered with
    the token [true] or [false]: alone when the parameter has no name,
    after [name=] when it has one (the name being rebuilt from the token
    when it begins with [_]).  [cube(10, center=True)] serializes to
    [cube(10, center=true);]. *)
Theorem boolean_parameter_token (b : bool) :
  let token := if b then "true" else "false" in
  format_parameter (None, VBool b) = Ok (VStr token)
  /\ (forall c k,
        format_parameter (Some (String c k), VBool b)
        = Ok (VStr ((if Ascii.eqb c "_" then "$" ++ str_slice1 token
                     else String c k)
                    ++ "=" ++ token)))
  /\ Model__str__ (cube [VInt 10] [("center", VBool true)])
     = Ok "cube(10, center=true);".
Proof.
  destruct b; simpl; (split; [reflexivity | split; [|reflexivity]]);
    intros c k; destruct (Ascii.eqb c "_"); reflexivity.
Qed.

(** ** The combining methods *)

(** C9: [a + b] is the node [minkowski] with no parameter, whose
    operands are [a] then [b]. *)
Theorem add_is_minkowski (a b : Model) :
  command_name (Model__add__ a b) = "minkowski"
  /\ args (Model__add__ a b) = []
  /\ operands (Model__add__ a b) = Some [a; b].
Proof. repeat split. Qed.

(** ** interleave *)

Lemma logged_loop {A : Type} (l : list A) (tr : list (event A)) :
  for_in (logged_seq l) (fun x => log Sep ;; log (Item x)) tr
  = (Ok tt, (tr ++ flat_map (fun y => [Next y; Sep; Item y]) l)%list).
Proof.
  revert tr. induction l as [|x l IH]; intros tr; simpl.
  - unfold ret. now rewrite app_nil_r.
  - rewrite bind_ok with (a := tt) (w' := ((tr ++ [Next x]) ++ [Sep; Item x])%list).
    + rewrite IH. now rewrite <- !app_assoc.
    + unfold bind, log. now rewrite <- !app_assoc.
Qed.

Lemma plain_loop {A : Type} (l : list A) (tr : list (event A)) :
  for_in (iter_list (list (event A)) l) (fun x => log Sep ;; log (Item x)) tr
  = (Ok tt, (tr ++ flat_map (fun y => [Sep; Item y]) l)%list).
Proof.
  revert tr. induction l as [|x l IH]; intros tr; simpl.
  - unfold ret. now rewrite app_nil_r.
  - rewrite bind_ok with (a := tt) (w' := (tr ++ [Sep; Item x])%list).
    + fold (iter_list (list (event A)) l). rewrite IH. now rewrite <- app_assoc.
    + unfold bind, log. now rewrite <- !app_assoc.
Qed.

Lemma calls_loop {A : Type} (l : list A) :
  calls (flat_map (fun y : A => [Next y; Sep; Item y]) l)
  = flat_map (fun e => [Sep; e]) (map (@Item A) l).
Proof. induction l as [|x l IH]; simpl; [reflexivity | now rewrite <- IH]. Qed.

Lemma separator_calls_loop {A : Type} (l : list A) :
  length (filter is_sep (flat_map (fun y : A => [Next y; Sep; Item y]) l))
  = length l.
Proof. induction l as [|x l IH]; simpl; [reflexivity | now rewrite IH]. Qed.

Lemma productions_loop {A : Type} (l : list A) :
  productions (flat_map (fun y : A => [Next y; Sep; Item y]) l) = l.
Proof. induction l as [|x l IH]; simpl; [reflexivity | now rewrite IH]. Qed.

(** C3: [interleave] over a sequence of [N] items runs [f x1], [inter],
    [f x2], [inter], ..., [f xN] in that order, whatever [f] and [inter]
    do (the first call of [f] is inside the [try] that ends the
    iteration, so it must not raise [StopIteration] itself).  With
    callbacks and a generator that record what happens: [f] is called on
    each item in order with one call of [inter] between two consecutive
    items, none before the first and none after the last, which makes
    [max(N-1, 0)] calls of [inter]; the sequence is asked for each item
    once, in order, each item just before the calls that concern it. *)
Theorem interleave_trace (A : Type) (l : list A) :
  (forall (W : Type) (inter : M W unit) (f : A -> M W unit) (w : W),
     (forall x, hd_error l = Some x -> fst (f x w) <> Raise StopIteration) ->
     interleave inter f (iter_list W l) w
     = in_order (intersperse inter (map f l)) w)
  /\
  let run := interleave (log Sep) (fun x => log (Item x)) (logged_seq l) [] in
  fst run = Ok tt
  /\ snd run = match l with
               | [] => []
               | x :: l' =>
                   Next x :: Item x
                   :: flat_map (fun y => [Next y; Sep; Item y]) l'
               end
  /\ calls (snd run) = intersperse Sep (map (@Item A) l)
  /\ separator_calls (snd run) = Z.max (Z.of_nat (length l) - 1) 0
  /\ productions (snd run) = l
  /\ interleave (log Sep) (fun x => log (Item x)) (iter_list _ l) []
     = (Ok tt, intersperse Sep (map (@Item A) l)).
Proof.
  split; [intros W inter f w; apply interleave_in_order|].
  intros run.
  assert (Hrun : run = (Ok tt,
                        match l with
                        | [] => []
                        | x :: l' =>
                            Next x :: Item x
                            :: flat_map (fun y => [Next y; Sep; Item y]) l'
                        end)).
  { unfold run. destruct l as [|x l]; [reflexivity|].
    unfold logged_seq. simpl map. fold (logged_seq l).
    rewrite interleave_first with (x := x) (w1 := [Next x]) (w2 := [Next x; Item x])
      by reflexivity.
    now rewrite logged_loop. }
  rewrite Hrun. clear run Hrun. simpl fst. simpl snd.
  split; [reflexivity | split; [reflexivity|]].
  destruct l as [|x l]; [repeat split|].
  split; [|split; [|split]].
  - change (calls (Next x :: Item x :: flat_map (fun y => [Next y; Sep; Item y]) l))
      with (Item x :: calls (flat_map (fun y => [Next y; Sep; Item y]) l)).
    rewrite calls_loop.
    change (map (@Item A) (x :: l)) with (Item x :: map (@Item A) l).
    now rewrite intersperse_cons.
  - unfold separator_calls.
    change (filter is_sep (Next x :: Item x
                           :: flat_map (fun y => [Next y; Sep; Item y]) l))
      with (filter is_sep (flat_map (fun y : A => [Next y; Sep; Item y]) l)).
    rewrite separator_calls_loop.
    change (length (x :: l)) with (S (length l)). lia.
  - change (productions (Next x :: Item x
                         :: flat_map (fun y => [Next y; Sep; Item y]) l))
      with (x :: productions (flat_map (fun y : A => [Next y; Sep; Item y]) l)).
    now rewrite productions_loop.
  - unfold iter_list. simpl map. fold (iter_list (list (event A)) l).
    rewrite interleave_first with (x := x) (w1 := []) (w2 := [Item x])
      by reflexivity.
    rewrite plain_loop.
    change (map (@Item A) (x :: l)) with (Item x :: map (@Item A) l).
    rewrite intersperse_cons. simpl app. do 2 f_equal.
    clear. induction l as [|y l IH]; simpl; [reflexivity | now rewrite IH].
Qed.

Lemma interleave_trace_witness :
  interleave (log Sep) (fun x => log (Item x))
    (iter_list (list (event nat)) [1; 2; 3]%nat) []
  = in_order (intersperse (log Sep) (map (fun x => log (Item x)) [1; 2; 3]%nat)) [].
Proof.
  apply (proj1 (interleave_trace [1; 2; 3]%nat)).
  intros x _. discriminate.
Defined.

(** ** Serialization *)

Lemma text_at_head (d : Z) (m : Model) :
  model_ok m = true ->
  exists rest,
    text_at d m = LF ++ str_mul "    " d ++ command_name m ++ "(" ++ rest.
Proof.
  destruct m as [n a [ops|]]; intros H.
  - rewrite text_at_node by exact H. eexists. reflexivity.
  - rewrite text_at_leaf.
    + eexists. reflexivity.
    + unfold model_ok in H. simpl in H. now rewrite andb_true_r in H.
Qed.

Lemma occurs_append (c : ascii) (s t : string) :
  occurs c (s ++ t) = (occurs c s || occurs c t)%bool.
Proof.
  induction s as [|x s IH]; simpl; [reflexivity|].
  now rewrite IH, orb_assoc.
Qed.

Lemma occurs_join (c : ascii) (sep : string) (l : list string) :
  occurs c sep = false ->
  (forall s, In s l -> occurs c s = false) ->
  occurs c (join sep l) = false.
Proof.
  intros Hsep. induction l as [|x l IH]; intros Hl; [reflexivity|].
  destruct l as [|y l].
  - apply Hl. now left.
  - change (join sep (x :: y :: l)) with (x ++ sep ++ join sep (y :: l)).
    rewrite !occurs_append, Hsep, (Hl x) by now left. simpl.
    apply IH. intros s Hs. apply Hl. now right.
Qed.

Lemma Model__str__leaf (n : string) (a : list (option string * value)) :
  forallb param_ok a = true ->
  Model__str__ (mkModel n a None)
  = Ok (n ++ "(" ++ join ", " (map param_text a) ++ ");").
Proof.
  intros Ha. unfold Model__str__.
  rewrite write_scad_code_head by exact Ha. unfold write.
  change (Ok (str_slice1
                (source (appended (appended CodeWriter__init__
                                     (head_frags 0 n a)) [VStr ";"])))
          = Ok (n ++ "(" ++ join ", " (map param_text a) ++ ");")).
  rewrite !source_appended, head_text. f_equal. now str_norm.
Qed.

(** C7 as it is worded fails for a node whose command name begins with
    a newline, whose text begins with that newline, and for a node with
    a parameter that cannot be formatted, whose conversion raises and
    gives no text. *)
Lemma str_newline_counterexample :
  Model__str__ (mkModel (LF ++ "cube") [] None) = Ok (LF ++ "cube();")
  /\ Model__str__ (cube [] [("_fn", VInt 5)]) = Raise TypeError.
Proof. split; reflexivity. Qed.

(** C7, amended: when every parameter of the tree can be formatted,
    converting a node to text gives the accumulated source of a fresh
    writer without its first character, which is the newline that the
    first [fill] put there; the text begins with the command name of the
    node, so it begins with a newline only when the command name does.
    When some parameter of the tree cannot be formatted, the conversion
    raises. *)
Theorem str_drops_leading_newline (m : Model) :
  (model_ok m = true ->
   exists c rest,
     _write_scad_code m CodeWriter__init__ = (Ok tt, c)
     /\ source c = LF ++ command_name m ++ "(" ++ rest
     /\ Model__str__ m = Ok (str_slice1 (source c))
     /\ Model__str__ m = Ok (command_name m ++ "(" ++ rest)
     /\ ((forall u, command_name m <> LF ++ u) ->
         forall t, command_name m ++ "(" ++ rest <> LF ++ t))
  /\ (model_ok m = false -> exists e, Model__str__ m = Raise e).
Proof.
  split; intros H.
  - destruct (write_scad_code_text m CodeWriter__init__ H)
      as (c & Hc & _ & _ & Hs).
    destruct (text_at_head 0 m H) as [rest Hrest].
    exists c, rest.
    assert (Hsrc : source c = LF ++ command_name m ++ "(" ++ rest).
    { change (_indent CodeWriter__init__) with 0 in Hs.
      rewrite Hs, Hrest. reflexivity. }
    unfold Model__str__. rewrite Hc, Hsrc. repeat split.
    intros Hname t Ht. destruct (command_name m) as [|x n].
    + discriminate.
    + inversion Ht; subst. now apply (Hname n).
  - destruct (write_scad_code_fail m CodeWriter__init__ H) as [e He].
    exists e. unfold Model__str__.
    destruct (_write_scad_code m CodeWriter__init__) as [r c].
    simpl in He. now subst r.
Qed.

Lemma str_drops_leading_newline_witness :
  model_ok (cube [VInt 10] [("center", VBool true)]) = true
  /\ exists c rest,
       _write_scad_code (cube [VInt 10] [("center", VBool true)])
         CodeWriter__init__ = (Ok tt, c)
       /\ source c = LF ++ "cube" ++ "(" ++ rest
       /\ Model__str__ (cube [VInt 10] [("center", VBool true)])
          = Ok (str_slice1 (source c))
       /\ Model__str__ (cube [VInt 10] [("center", VBool true)])
          = Ok ("cube" ++ "(" ++ rest)
       /\ ((forall u, "cube" <> LF ++ u) ->
           forall t, "cube" ++ "(" ++ rest <> LF ++ t).
Proof.
  split; [reflexivity|].
  apply (proj1 (str_drops_leading_newline
                  (cube [VInt 10] [("center", VBool true)]))).
  reflexivity.
Defined.

(** * Further properties of the code *)

(** ** The outcome of a serialization *)

Lemma first_error_app (l1 l2 : list (option string * value)) :
  first_error (l1 ++ l2)
  = match first_error l1 with
    | Some e => Some e
    | None => first_error l2
    end.
Proof.
  induction l1 as [|a l1 IH]; simpl; [reflexivity|].
  destruct (format_parameter a); [exact IH | reflexivity].
Qed.

Lemma first_error_none (l : list (option string * value)) :
  first_error l = None <-> forallb param_ok l = true.
Proof.
  induction l as [|a l IH]; simpl; [tauto|].
  unfold param_ok at 1. destruct (format_parameter a); simpl.
  - exact IH.
  - split; discriminate.
Qed.

Lemma first_error_not_stop (l : list (option string * value)) :
  first_error l <> Some StopIteration.
Proof.
  induction l as [|a l IH]; simpl; [discriminate|].
  pose proof (format_parameter_not_stop a) as H.
  destruct (format_parameter a) as [v|e]; [exact IH | congruence].
Qed.

Local Abbreviation write_arg :=
  (fun arg => text <- lift (format_parameter arg) ;; write text).

Lemma params_loop_outcome (l : list (option string * value)) (w : CodeWriter) :
  exists frags,
    for_in (iter_list CodeWriter l) (fun x => write (VStr ", ") ;; write_arg x) w
    = (outcome l, appended w frags).
Proof.
  revert w. induction l as [|x l IH]; intros w.
  - exists []. unfold appended. simpl. rewrite app_nil_r. now destruct w.
  - unfold outcome. simpl first_error.
    destruct (format_parameter x) as [v|e] eqn:E.
    + destruct (IH (appended w [VStr ", "; v])) as [frags Hf].
      exists ([VStr ", "; v] ++ frags)%list.
      simpl for_in.
      rewrite bind_ok with (a := tt) (w' := appended w [VStr ", "; v]).
      * rewrite Hf. now rewrite appended_appended.
      * rewrite bind_ok with (a := tt) (w' := appended w [VStr ", "]) by reflexivity.
        unfold bind, lift. rewrite E. unfold write, appended. simpl.
        now rewrite <- app_assoc.
    + exists [VStr ", "].
      simpl for_in.
      rewrite bind_raise with (e := e) (w' := appended w [VStr ", "]); [reflexivity|].
      rewrite bind_ok with (a := tt) (w' := appended w [VStr ", "]) by reflexivity.
      unfold bind, lift. now rewrite E.
Qed.

Lemma params_outcome (l : list (option string * value)) (w : CodeWriter) :
  exists frags,
    interleave (write (VStr ", ")) write_arg (iter_list CodeWriter l) w
    = (outcome l, appended w frags).
Proof.
  destruct l as [|x l].
  - exists []. unfold appended. simpl. rewrite app_nil_r. now destruct w.
  - change (iter_list CodeWriter (x :: l)) with (ret x :: iter_list CodeWriter l).
    unfold outcome. simpl first_error.
    pose proof (format_parameter_not_stop x) as Hstop.
    destruct (format_parameter x) as [v|e] eqn:E.
    + destruct (params_loop_outcome l (appended w [v])) as [frags Hf].
      exists ([v] ++ frags)%list.
      rewrite interleave_first with (x := x) (w1 := w) (w2 := appended w [v]).
      * rewrite Hf. now rewrite appended_appended.
      * reflexivity.
      * unfold bind, lift. now rewrite E.
    + exists [].
      rewrite interleave_first_raise with (x := x) (w1 := w) (w2 := w) (e := e).
      * unfold appended. rewrite app_nil_r. now destruct w.
      * reflexivity.
      * unfold bind, lift. now rewrite E.
      * congruence.
Qed.

Lemma head_raise (n : string) (a : list (option string * value))
    (o : option (list Model)) (w : CodeWriter) (e : exn) :
  first_error a = Some e ->
  exists frags,
    _write_scad_code (mkModel n a o) w = (Raise e, appended w frags).
Proof.
  intros Ha. simpl.
  set (w0 := appended w [VStr (LF ++ str_mul "    " (_indent w) ++ n)]).
  destruct (params_outcome a (appended w0 [VStr "("])) as [frags Hf].
  unfold outcome in Hf. rewrite Ha in Hf.
  exists ([VStr (LF ++ str_mul "    " (_indent w) ++ n)] ++ [VStr "("] ++ frags)%list.
  rewrite bind_ok with (a := tt) (w' := w0) by reflexivity.
  rewrite bind_raise with (e := e) (w' := appended (appended w0 [VStr "("]) frags).
  - unfold w0. now rewrite !appended_appended.
  - unfold delimit.
    rewrite bind_ok with (a := tt) (w' := appended w0 [VStr "("]) by reflexivity.
    now rewrite bind_raise with (e := e) (w' := appended (appended w0 [VStr "("]) frags).
Qed.

Lemma appended_deepened (w : CodeWriter) (l : list value) :
  appended w l = deepened w l 0.
Proof. unfold appended, deepened. now rewrite Z.add_0_r. Qed.

Lemma deepened_deepened (w : CodeWriter) (l1 l2 : list value) (k1 k2 : Z) :
  deepened (deepened w l1 k1) l2 k2 = deepened w (l1 ++ l2) (k1 + k2).
Proof. unfold deepened. simpl. now rewrite app_assoc, Z.add_assoc. Qed.

Lemma first_error_operands (ops : list Model) :
  first_error (flat_map all_params ops) = None <-> existsb fails ops = false.
Proof.
  induction ops as [|op ops IH]; simpl; [tauto|].
  rewrite first_error_app. unfold fails at 1.
  destruct (first_error (all_params op)); simpl.
  - split; discriminate.
  - exact IH.
Qed.

Lemma level_of_first_none {A : Type} (bad : A -> bool) (level : A -> Z)
    (l : list A) :
  existsb bad l = false -> level_of_first bad level l = 0.
Proof.
  induction l as [|x l IH]; simpl; [reflexivity|].
  destruct (bad x); [discriminate | exact IH].
Qed.

Lemma open_blocks_ok (m : Model) :
  first_error (all_params m) = None -> open_blocks m = 0.
Proof.
  destruct m as [n a [ops|]]; simpl; rewrite first_error_app;
    destruct (first_error a); try discriminate; try reflexivity.
  intros H. apply first_error_operands in H. now rewrite H.
Qed.

Lemma for_list_outcome (ops : list Model) :
  Forall (fun op => forall w, exists frags,
            _write_scad_code op w
            = (outcome (all_params op), deepened w frags (open_blocks op))) ops ->
  forall w, exists frags,
    for_list _write_scad_code ops w
    = (outcome (flat_map all_params ops),
       deepened w frags (level_of_first fails open_blocks ops)).
Proof.
  induction 1 as [|op ops Hop _ IH]; intros w.
  - exists []. simpl. unfold ret, deepened. rewrite app_nil_r, Z.add_0_r.
    now destruct w.
  - destruct (Hop w) as [f1 H1].
    change (for_list _write_scad_code (op :: ops))
      with (_write_scad_code op ;; for_list _write_scad_code ops).
    simpl flat_map. simpl level_of_first. unfold outcome at 1.
    rewrite first_error_app. unfold fails at 1. unfold outcome in H1.
    destruct (first_error (all_params op)) as [e|] eqn:E.
    + exists f1. now rewrite bind_raise with (e := e)
                       (w' := deepened w f1 (open_blocks op)).
    + rewrite open_blocks_ok in H1 by exact E.
      destruct (IH (deepened w f1 0)) as [f2 H2].
      exists (f1 ++ f2)%list.
      rewrite bind_ok with (a := tt) (w' := deepened w f1 0) by exact H1.
      rewrite H2, deepened_deepened. reflexivity.
Qed.

Lemma write_scad_code_outcome (m : Model) (w : CodeWriter) :
  exists frags,
    _write_scad_code m w
    = (outcome (all_params m), deepened w frags (open_blocks m)).
Proof.
  revert w. induction m as [n a|n a ops IH] using Model_ind_ops; intros w.
  - simpl all_params. rewrite app_nil_r. unfold outcome. simpl open_blocks.
    destruct (first_error a) as [e|] eqn:Ha.
    + destruct (@head_raise n a None w e Ha) as [frags Hf].
      exists frags. now rewrite Hf, appended_deepened.
    + apply first_error_none in Ha.
      rewrite write_scad_code_head by exact Ha.
      exists (head_frags (_indent w) n a ++ [VStr ";"])%list.
      unfold write. rewrite <- appended_deepened, <- appended_appended.
      reflexivity.
  - simpl all_params. unfold outcome. rewrite first_error_app.
    simpl open_blocks.
    destruct (first_error a) as [e|] eqn:Ha.
    + destruct (@head_raise n a (Some ops) w e Ha) as [frags Hf].
      exists frags. now rewrite Hf, appended_deepened.
    + apply first_error_none in Ha.
      rewrite write_scad_code_head by exact Ha.
      set (w1 := appended w (head_frags (_indent w) n a)).
      destruct (for_list_outcome IH (entered w1)) as [frags Hf].
      unfold outcome in Hf.
      destruct (first_error (flat_map all_params ops)) as [e|] eqn:Hops.
      * assert (Hex : existsb fails ops = true).
        { destruct (existsb fails ops) eqn:Hex; [reflexivity|].
          apply first_error_operands in Hex. congruence. }
        rewrite Hex.
        exists (head_frags (_indent w) n a ++ [VStr "{"] ++ frags)%list.
        rewrite block_raise with (e := e)
          (w2 := deepened (entered w1) frags
                   (level_of_first fails open_blocks ops)) by exact Hf.
        f_equal. unfold deepened, entered, w1, appended.
        cbn [_source _buffer _indent].
        f_equal; [now rewrite <- !app_assoc | lia].
      * apply first_error_operands in Hops. rewrite Hops.
        rewrite level_of_first_none in Hf by exact Hops.
        rewrite block_ok with (w2 := deepened (entered w1) frags 0) by exact Hf.
        exists (head_frags (_indent w) n a ++ [VStr "{"] ++ frags
                ++ [VStr (LF ++ str_mul "    " (_indent w) ++ "}")])%list.
        f_equal. unfold closed, deepened, entered, w1, appended.
        cbn [_source _buffer _indent].
        replace (_indent w + 1 + 0 - 1) with (_indent w) by lia.
        f_equal; [now rewrite <- !app_assoc | lia].
Qed.

Lemma open_blocks_nonneg (m : Model) : 0 <= open_blocks m.
Proof.
  induction m as [n a|n a ops IH] using Model_ind_ops; simpl.
  - destruct (first_error a); lia.
  - destruct (first_error a); [lia|].
    destruct (existsb fails ops); [|lia].
    enough (0 <= level_of_first fails open_blocks ops) by lia.
    induction IH as [|op ops Hop _ IHops]; simpl; [lia|].
    destruct (fails op); assumption.
Qed.

(** X2: a serialization leaves the writer deeper than it found it by the
    number of blocks that were open when it ended: none when it returns,
    and when it raises, the blocks that enclose the parameter that could
    not be formatted.  The depth never goes below its value at the
    start, and it is strictly above it when the failure is in an
    operand. *)
Theorem depth_after_serialization (m : Model) (w : CodeWriter) :
  _indent (snd (_write_scad_code m w)) = _indent w + open_blocks m
  /\ _indent w <= _indent (snd (_write_scad_code m w))
  /\ (fst (_write_scad_code m w) = Ok tt ->
      _indent (snd (_write_scad_code m w)) = _indent w)
  /\ (first_error (args m) = None -> fails m = true ->
      _indent w < _indent (snd (_write_scad_code m w))).
Proof.
  destruct (write_scad_code_outcome m w) as [frags Hf]. rewrite Hf.
  cbn [fst snd deepened _indent].
  pose proof (open_blocks_nonneg m) as Hn.
  split; [reflexivity | split; [lia | split]].
  - unfold outcome. intros H.
    destruct (first_error (all_params m)) eqn:E; [discriminate|].
    rewrite open_blocks_ok by exact E. lia.
  - intros Ha Hfail. unfold fails in Hfail.
    destruct m as [n a [ops|]]; simpl in *.
    + rewrite Ha. rewrite first_error_app, Ha in Hfail.
      destruct (existsb fails ops) eqn:Hex.
      * enough (0 <= level_of_first fails open_blocks ops) by lia.
        clear. induction ops as [|op ops IH]; simpl; [lia|].
        destruct (fails op); [apply open_blocks_nonneg | exact IH].
      * apply first_error_operands in Hex. rewrite Hex in Hfail. discriminate.
    + rewrite first_error_app, Ha in Hfail. discriminate.
Qed.

Lemma depth_after_serialization_witness :
  first_error (args (union [hull (cube [] [("_fn", VInt 5)]) [] []] [] [])) = None
  /\ fails (union [hull (cube [] [("_fn", VInt 5)]) [] []] [] []) = true
  /\ _indent CodeWriter__init__
     < _indent (snd (_write_scad_code
                       (union [hull (cube [] [("_fn", VInt 5)]) [] []] [] [])
                       CodeWriter__init__)).
Proof.
  split; [reflexivity | split; [reflexivity|]].
  apply (proj2 (proj2 (proj2 (depth_after_serialization
                                (union [hull (cube [] [("_fn", VInt 5)]) [] []] [] [])
                                CodeWriter__init__))));
    reflexivity.
Defined.

(** ** interleave and StopIteration *)

(** X3: the [try] of [interleave] encloses the first call of [f], so a
    [StopIteration] that [f] raises on the first item is taken for the
    end of the sequence: [interleave] returns normally and the other
    items are never emitted.  Raised on a later item, the same exception
    propagates to the caller. *)
Theorem interleave_stop_iteration (W A : Type) (inter : M W unit)
    (f : A -> M W unit) (x y : A) (l : list A) (w w1 w2 w3 : W) :
  (f x w = (Raise StopIteration, w1) ->
   interleave inter f (iter_list W (x :: l)) w = (Ok tt, w1))
  /\ (f x w = (Ok tt, w1) ->
      inter w1 = (Ok tt, w2) ->
      f y w2 = (Raise StopIteration, w3) ->
      interleave inter f (iter_list W (x :: y :: l)) w
      = (Raise StopIteration, w3)).
Proof.
  split.
  - intros Hf. unfold interleave.
    change (iter_list W (x :: l)) with (ret x :: iter_list W l).
    simpl py_next.
    rewrite bind_ok with (a := (x, iter_list W l)) (w' := w) by reflexivity.
    simpl fst.
    now rewrite bind_raise with (e := StopIteration) (w' := w1) by exact Hf.
  - intros Hx Hi Hy.
    change (iter_list W (x :: y :: l)) with (ret x :: iter_list W (y :: l)).
    rewrite interleave_first with (x := x) (w1 := w) (w2 := w1)
      by (reflexivity || exact Hx).
    simpl for_in.
    rewrite bind_raise with (e := StopIteration) (w' := w3); [reflexivity|].
    now rewrite bind_ok with (a := tt) (w' := w2) by exact Hi.
Qed.

Lemma interleave_stop_iteration_witness :
  interleave (log Sep)
    (fun n : nat => if Nat.eqb n 0 then raise StopIteration else log (Item n))
    (iter_list (list (event nat)) [0; 1; 2]%nat) []
  = (Ok tt, []).
Proof.
  apply (proj1 (interleave_stop_iteration (log Sep)
                  (fun n : nat =>
                     if Nat.eqb n 0 then raise StopIteration else log (Item n))
                  0%nat 1%nat [1; 2]%nat [] [] [] [])).
  reflexivity.
Defined.

(** ** The buffer *)

Lemma for_list_buffer_writer (l : list string) (w : CodeWriter) :
  for_list buffer_writer l w
  = (Ok tt, {| _source := _source w;
               _buffer := _buffer w ++ l;
               _indent := _indent w |}).
Proof.
  revert w. induction l as [|x l IH]; intros w.
  - simpl. unfold ret. rewrite app_nil_r. now destruct w.
  - change (for_list buffer_writer (x :: l))
      with (buffer_writer x ;; for_list buffer_writer l).
    rewrite bind_ok with (a := tt)
      (w' := {| _source := _source w; _buffer := _buffer w ++ [x];
                _indent := _indent w |}) by reflexivity.
    rewrite IH. simpl. now rewrite <- app_assoc.
Qed.

(** X4: reading [buffer] returns, joined, everything [buffer_writer] has
    been given since the buffer was last read, and empties the buffer: a
    second read returns the empty string.  Neither operation touches the
    source or the depth. *)
Theorem buffer_read_empties (l : list string) (w : CodeWriter) :
  (for_list buffer_writer l ;; a <- buffer ;; b <- buffer ;; ret (a, b)) w
  = (Ok (join "" (_buffer w ++ l), EmptyString),
     {| _source := _source w; _buffer := []; _indent := _indent w |}).
Proof.
  rewrite bind_ok with (a := tt)
    (w' := {| _source := _source w; _buffer := _buffer w ++ l;
              _indent := _indent w |}) by apply for_list_buffer_writer.
  reflexivity.
Qed.

(** ** The constructors *)

Lemma init_params_ok (vs : list value) (kws : list (string * value)) :
  forallb (fun kv => plain_name (fst kv)) kws = true ->
  forallb param_ok
    (map (fun arg => (None, arg)) vs
     ++ map (fun kv => (Some (fst kv), snd kv)) kws) = true.
Proof.
  intros H. rewrite forallb_forall in H |- *. intros arg Hin.
  apply in_app_or in Hin. destruct Hin as [Hin|Hin];
    apply in_map_iff in Hin; destruct Hin as (x & <- & Hx); unfold param_ok.
  - now rewrite format_parameter_unnamed.
  - specialize (H x Hx). unfold plain_name in H.
    apply andb_prop in H. destruct H as [Ht Hs]. apply negb_true_iff in Hs.
    now rewrite format_parameter_named by assumption.
Qed.

Lemma param_text_positional (v : value) :
  param_text (None, v) = positional_text v.
Proof. unfold param_text, formatted. now rewrite format_parameter_unnamed. Qed.

Lemma param_text_named (k : string) (v : value) :
  plain_name k = true -> param_text (Some k, v) = named_text (k, v).
Proof.
  unfold plain_name. intros H. apply andb_prop in H. destruct H as [Ht Hs].
  apply negb_true_iff in Hs. unfold param_text, formatted.
  now rewrite format_parameter_named by assumption.
Qed.

Lemma init_params_text (vs : list value) (kws : list (string * value)) :
  forallb (fun kv => plain_name (fst kv)) kws = true ->
  map param_text
    (map (fun arg => (None, arg)) vs
     ++ map (fun kv => (Some (fst kv), snd kv)) kws)
  = (map positional_text vs ++ map named_text kws)%list.
Proof.
  intros H. rewrite map_app, !map_map. f_equal.
  - apply map_ext. intros v. apply param_text_positional.
  - apply map_ext_in. intros [k v] Hin. apply param_text_named.
    rewrite forallb_forall in H. now apply (H (k, v)).
Qed.

Lemma Model__str__ok (m : Model) :
  model_ok m = true -> Model__str__ m = Ok (str_slice1 (text_at 0 m)).
Proof.
  intros H. unfold Model__str__.
  destruct (write_scad_code_text m CodeWriter__init__ H)
    as (c & Hc & _ & _ & Hs).
  rewrite Hc, Hs. reflexivity.
Qed.

(** A call [Model(n, *vs, **kws)] without operands, and one with the
    operands [ops]. *)
Lemma init_leaf_text (n : string) (vs : list value) (kws : list (string * value)) :
  forallb (fun kv => plain_name (fst kv)) kws = true ->
  Model__str__ (Model__init__ n vs None kws)
  = Ok (n ++ "(" ++ call_text vs kws ++ ");").
Proof.
  intros H. unfold Model__init__.
  rewrite Model__str__leaf by now apply init_params_ok.
  now rewrite init_params_text.
Qed.

Lemma init_block_text (n : string) (vs : list value) (kws : list (string * value))
    (ops : list Model) :
  forallb (fun kv => plain_name (fst kv)) kws = true ->
  forallb model_ok ops = true ->
  Model__str__ (Model__init__ n vs (Some ops) kws)
  = Ok (n ++ "(" ++ call_text vs kws ++ "){"
        ++ join "" (map (text_at 1) ops) ++ LF ++ "}").
Proof.
  intros H Hops. unfold Model__init__.
  assert (Hok : model_ok
                  (mkModel n (map (fun arg => (None, arg)) vs
                              ++ map (fun kv => (Some (fst kv), snd kv)) kws)
                     (Some ops)) = true).
  { change (forallb param_ok
              (map (fun arg => (None, arg)) vs
               ++ map (fun kv => (Some (fst kv), snd kv)) kws)
            && forallb model_ok ops = true)%bool.
    now rewrite init_params_ok, Hops. }
  rewrite Model__str__ok by exact Hok.
  rewrite text_at_node by exact Hok.
  rewrite init_params_text by exact H. f_equal.
Qed.

(** X5: a primitive called with positional values and with named values
    serializes to one statement [name(v1, ..., k1=w1, ...);], the
    positional values first, in order, then the named ones in the order
    they were given, booleans as [true] and [false] and strings as they
    are, without quotes, when the names of the named values are not
    empty, do not begin with [_], are distinct and are none of [self],
    [command_name] and [operands], the names of the parameters of
    [Model.__init__]. *)
Theorem primitives_text (vs : list value) (kws : list (string * value)) :
  forallb (fun kv => plain_name (fst kv)) kws = true ->
  keywords init_params kws = true ->
  Forall (fun p : string * (list value -> list (string * value) -> Model) =>
            Model__str__ (snd p vs kws)
            = Ok (fst p ++ "(" ++ call_text vs kws ++ ");"))
    [("cube", cube); ("sphere", sphere); ("circle", circle);
     ("square", square); ("polyhedron", polyhedron);
     ("cylinder", cylinder); ("polygon", polygon)].
Proof.
  intros H _. repeat constructor; apply init_leaf_text; exact H.
Qed.

Lemma primitives_text_witness :
  forallb (fun kv => plain_name (fst kv)) [("h", VInt 3); ("center", VBool false)]
  = true
  /\ keywords init_params [("h", VInt 3); ("center", VBool false)] = true
  /\ Model__str__ (cylinder [VFloat "1.5"; VStr "r"]
                     [("h", VInt 3); ("center", VBool false)])
     = Ok "cylinder(1.5, r, h=3, center=false);".
Proof.
  split; [reflexivity | split; [reflexivity|]].
  pose proof (primitives_text [VFloat "1.5"; VStr "r"]
                [("h", VInt 3); ("center", VBool false)] eq_refl eq_refl) as H.
  rewrite Forall_forall in H.
  apply (H ("cylinder", cylinder)). simpl. tauto.
Defined.

(** X6: an operator serializes to [name(parameters){], the
    serializations of its operands one level deep, and [}] on a line of
    its own, when every parameter of its operands can be formatted and
    the names of its named values are not empty, do not begin with [_],
    are distinct and are none of the names of the parameters of the
    operator and of [Model.__init__].  [hull], [multmatrix],
    [linear_extrude], [rotate_extrude], [projection] and [offset], whose
    parameter is [model], wrap the single node they are given; [union],
    [intersection], [difference] and [minkowski], whose parameter is
    [models], wrap the nodes of the list they are given, in order. *)
Theorem operators_text (vs : list value) (kws : list (string * value))
    (m : Model) (ms : list Model) :
  forallb (fun kv => plain_name (fst kv)) kws = true ->
  (keywords ("model" :: init_params) kws = true ->
   model_ok m = true ->
   Forall (fun p : string * (Model -> list value -> list (string * value) -> Model) =>
             Model__str__ (snd p m vs kws)
             = Ok (fst p ++ "(" ++ call_text vs kws ++ "){"
                   ++ text_at 1 m ++ LF ++ "}"))
     [("hull", hull); ("multmatrix", multmatrix);
      ("linear_extrude", linear_extrude); ("rotate_extrude", rotate_extrude);
      ("projection", projection); ("offset", offset)])
  /\ (keywords ("models" :: init_params) kws = true ->
      forallb model_ok ms = true ->
      Forall (fun p : string * (list Model -> list value -> list (string * value)
                                -> Model) =>
                Model__str__ (snd p ms vs kws)
                = Ok (fst p ++ "(" ++ call_text vs kws ++ "){"
                      ++ join "" (map (text_at 1) ms) ++ LF ++ "}"))
        [("union", union); ("intersection", intersection);
         ("difference", difference); ("minkowski", minkowski)]).
Proof.
  intros H. split.
  - intros _ Hm.
    assert (H1 : forallb model_ok [m] = true) by (simpl; now rewrite Hm).
    repeat constructor;
      (cbn [fst snd];
       unfold hull, multmatrix, linear_extrude, rotate_extrude, projection, offset;
       rewrite init_block_text by assumption; reflexivity).
  - intros _ Hms.
    repeat constructor;
      cbn [fst snd]; unfold union, intersection, difference, minkowski;
      now rewrite init_block_text by assumption.
Qed.

Lemma operators_text_witness :
  forallb (fun kv => plain_name (fst kv)) [("height", VInt 5)] = true
  /\ keywords ("model" :: init_params) [("height", VInt 5)] = true
  /\ model_ok (circle [VInt 2] []) = true
  /\ Model__str__ (linear_extrude (circle [VInt 2] []) [] [("height", VInt 5)])
     = Ok ("linear_extrude(height=5){" ++ LF ++ "    circle(2);" ++ LF ++ "}").
Proof.
  split; [reflexivity | split; [reflexivity | split; [reflexivity|]]].
  pose proof (proj1 (operators_text [] [("height", VInt 5)]
                       (circle [VInt 2] []) [] eq_refl) eq_refl eq_refl) as H.
  rewrite Forall_forall in H.
  apply (H ("linear_extrude", linear_extrude)). simpl. tauto.
Defined.

(** X7: the methods that combine a node with another one, [union],
    [intersection], [difference] and [+], serialize to the operator's
    name with an empty parameter list and a block that holds the text of
    the first node and then the text of the second, both one level
    deep. *)
Theorem binary_methods_text (a b : Model) :
  model_ok a = true ->
  model_ok b = true ->
  Model__str__ (Model_union a b)
  = Ok ("union(){" ++ text_at 1 a ++ text_at 1 b ++ LF ++ "}")
  /\ Model__str__ (Model_intersection a b)
     = Ok ("intersection(){" ++ text_at 1 a ++ text_at 1 b ++ LF ++ "}")
  /\ Model__str__ (Model_difference a b)
     = Ok ("difference(){" ++ text_at 1 a ++ text_at 1 b ++ LF ++ "}")
  /\ Model__str__ (Model__add__ a b)
     = Ok ("minkowski(){" ++ text_at 1 a ++ text_at 1 b ++ LF ++ "}").
Proof.
  intros Ha Hb.
  assert (H2 : forallb model_ok [a; b] = true) by (simpl; now rewrite Ha, Hb).
  unfold Model_union, Model_intersection, Model_difference, Model__add__,
    union, intersection, difference, minkowski.
  rewrite !init_block_text by (reflexivity || exact H2).
  cbn [map join String.concat call_text app].
  repeat split; f_equal; now str_norm.
Qed.

Lemma binary_methods_text_witness :
  model_ok (cube [VInt 1] []) = true
  /\ model_ok (sphere [VInt 2] []) = true
  /\ Model__str__ (Model_difference (cube [VInt 1] []) (sphere [VInt 2] []))
     = Ok ("difference(){" ++ LF ++ "    cube(1);" ++ LF ++ "    sphere(2);"
           ++ LF ++ "}").
Proof.
  split; [reflexivity | split; [reflexivity|]].
  apply (proj1 (proj2 (proj2 (binary_methods_text (cube [VInt 1] [])
                                (sphere [VInt 2] []) eq_refl eq_refl)))).
Defined.

(** ** Indentation *)

Lemma shift_append (pad s t : string) :
  shift pad (s ++ t) = shift pad s ++ shift pad t.
Proof.
  induction s as [|c s IH]; simpl; [reflexivity|].
  destruct (Ascii.eqb c "010"); simpl; rewrite IH; [|reflexivity].
  now rewrite append_assoc.
Qed.

Lemma shift_free (pad s : string) :
  occurs "010" s = false -> shift pad s = s.
Proof.
  induction s as [|c s IH]; simpl; [reflexivity|].
  destruct (Ascii.eqb c "010"); simpl; [discriminate|].
  intros H. now rewrite IH.
Qed.

Lemma shift_join_empty (pad : string) (l : list string) :
  shift pad (join "" l) = join "" (map (shift pad) l).
Proof.
  induction l as [|x l IH]; [reflexivity|].
  simpl map. now rewrite !join_empty_cons, shift_append, IH.
Qed.

Lemma str_mul_add (s : string) (a b : Z) :
  0 <= a -> 0 <= b -> str_mul s (a + b) = str_mul s a ++ str_mul s b.
Proof.
  intros Ha Hb. unfold str_mul.
  rewrite Z2Nat.inj_add by assumption.
  rewrite repeat_app. apply join_empty_app.
Qed.

Lemma occurs_str_mul (c : ascii) (s : string) (n : Z) :
  occurs c s = false -> occurs c (str_mul s n) = false.
Proof.
  intros H. unfold str_mul. apply occurs_join; [reflexivity|].
  intros t Ht. apply repeat_spec in Ht. now subst t.
Qed.

Lemma occurs_params (c : ascii) (a : list (option string * value)) :
  occurs c ", " = false ->
  forallb (fun arg => negb (occurs c (param_text arg))) a = true ->
  occurs c (join ", " (map param_text a)) = false.
Proof.
  intros Hsep H. apply occurs_join; [exact Hsep|].
  intros t Ht. apply in_map_iff in Ht. destruct Ht as (arg & <- & Hin).
  rewrite forallb_forall in H. specialize (H arg Hin).
  now apply negb_true_iff in H.
Qed.

Lemma text_at_shift (m : Model) :
  model_ok m = true ->
  free_of "010" m = true ->
  forall d k, 0 <= d -> 0 <= k ->
    text_at (d + k) m = shift (str_mul "    " k) (text_at d m).
Proof.
  induction m as [n a|n a ops IH] using Model_ind_ops; intros Hok Hfree d k Hd Hk.
  - unfold model_ok in Hok. simpl in Hok. rewrite andb_true_r in Hok.
    unfold free_of in Hfree. simpl in Hfree. rewrite andb_true_r in Hfree.
    apply andb_prop in Hfree. destruct Hfree as [Hn Ha].
    apply negb_true_iff in Hn.
    rewrite !text_at_leaf by exact Hok.
    rewrite !shift_append.
    rewrite (shift_free _ (str_mul "    " d))
      by now apply occurs_str_mul.
    rewrite (shift_free _ n) by exact Hn.
    rewrite (shift_free _ (join ", " (map param_text a)))
      by now apply occurs_params.
    rewrite (Z.add_comm d k), str_mul_add by assumption.
    unfold LF. simpl. now rewrite !append_assoc.
  - pose proof Hok as Hok'.
    change (model_ok (mkModel n a (Some ops)))
      with (forallb param_ok a && forallb model_ok ops)%bool in Hok.
    apply andb_prop in Hok. destruct Hok as [Hpa Hops].
    change (free_of "010" (mkModel n a (Some ops)))
      with (negb (occurs "010" n)
            && forallb (fun arg => negb (occurs "010" (param_text arg))) a
            && forallb (free_of "010") ops)%bool in Hfree.
    apply andb_prop in Hfree. destruct Hfree as [Hfree Hfops].
    apply andb_prop in Hfree. destruct Hfree as [Hn Ha].
    apply negb_true_iff in Hn.
    rewrite !text_at_node by exact Hok'.
    rewrite !shift_append.
    rewrite (shift_free _ (str_mul "    " d))
      by now apply occurs_str_mul.
    rewrite (shift_free _ n) by exact Hn.
    rewrite (shift_free _ (join ", " (map param_text a)))
      by now apply occurs_params.
    rewrite shift_join_empty, map_map.
    assert (Hmap : map (text_at (d + k + 1)) ops
                   = map (fun x => shift (str_mul "    " k) (text_at (d + 1) x)) ops).
    { apply map_ext_in. intros op Hin.
      rewrite Forall_forall in IH. rewrite forallb_forall in Hops, Hfops.
      replace (d + k + 1) with (d + 1 + k) by lia.
      apply IH; auto; lia. }
    rewrite Hmap.
    rewrite (Z.add_comm d k), str_mul_add by assumption.
    unfold LF. simpl. now rewrite !append_assoc.
Qed.

Lemma length_append (s t : string) :
  String.length (s ++ t) = (String.length s + String.length t)%nat.
Proof. induction s as [|c s IH]; simpl; [reflexivity | now rewrite IH]. Qed.

Lemma length_str_mul (k : Z) :
  String.length (str_mul "    " k) = (4 * Z.to_nat k)%nat.
Proof.
  unfold str_mul. induction (Z.to_nat k) as [|j IH]; [reflexivity|].
  change (repeat "    " (S j)) with ("    " :: repeat "    " j).
  change (String.concat "" ("    " :: repeat "    " j))
    with (join "" ("    " :: repeat "    " j)).
  rewrite join_empty_cons, length_append.
  unfold join. rewrite IH. simpl. lia.
Qed.

(** X8: when no command name and no parameter text of a tree holds a
    newline, the text of the tree at depth [d + k] is its text at depth
    [d] with [4 * k] spaces inserted after every newline: nesting a node
    [k] blocks deeper indents each of its lines by [k] more units of four
    spaces and changes nothing else. *)
Theorem deeper_text_is_shifted (m : Model) (d k : Z) :
  model_ok m = true ->
  free_of "010" m = true ->
  0 <= d -> 0 <= k ->
  text_at (d + k) m = shift (str_mul "    " k) (text_at d m)
  /\ String.length (str_mul "    " k) = (4 * Z.to_nat k)%nat.
Proof.
  intros Hok Hfree Hd Hk. split; [now apply text_at_shift|].
  apply length_str_mul.
Qed.

Lemma deeper_text_is_shifted_witness :
  model_ok (union [cube [VInt 1] []] [] []) = true
  /\ free_of "010" (union [cube [VInt 1] []] [] []) = true
  /\ 0 <= 0 /\ 0 <= 2
  /\ text_at (0 + 2) (union [cube [VInt 1] []] [] [])
     = shift (str_mul "    " 2) (text_at 0 (union [cube [VInt 1] []] [] [])).
Proof.
  split; [reflexivity | split; [reflexivity | split; [lia | split; [lia|]]]].
  apply (proj1 (@deeper_text_is_shifted (union [cube [VInt 1] []] [] []) 0 2
                  eq_refl eq_refl ltac:(lia) ltac:(lia))).
Defined.

(** ** Braces and semicolons *)

Lemma count_append (c : ascii) (s t : string) :
  count c (s ++ t) = (count c s + count c t)%nat.
Proof.
  induction s as [|x s IH]; simpl; [reflexivity|]. rewrite IH. lia.
Qed.

Lemma count_free (c : ascii) (s : string) :
  occurs c s = false -> count c s = 0%nat.
Proof.
  induction s as [|x s IH]; simpl; [reflexivity|].
  destruct (Ascii.eqb x c); simpl; [discriminate | exact IH].
Qed.

Lemma count_join_empty (c : ascii) (l : list string) :
  count c (join "" l) = list_sum (map (count c) l).
Proof.
  induction l as [|x l IH]; [reflexivity|].
  rewrite join_empty_cons, count_append, IH. reflexivity.
Qed.

Lemma list_sum_linear {A : Type} (f g : A -> nat) (p q : nat) (l : list A) :
  list_sum (map (fun x => f x * p + g x * q)%nat l)
  = (list_sum (map f l) * p + list_sum (map g l) * q)%nat.
Proof. induction l as [|x l IH]; simpl; [reflexivity | rewrite IH; lia]. Qed.

Lemma count_text_at (c : ascii) (m : Model) :
  c = "{"%char \/ c = "}"%char \/ c = ";"%char ->
  model_ok m = true ->
  free_of c m = true ->
  forall d,
    count c (text_at d m)
    = (leaves m * count c ";" + blocks m * (count c "{" + count c "}"))%nat.
Proof.
  intros Hc.
  assert (Hpunct : occurs c LF = false /\ occurs c "    " = false
                   /\ occurs c ", " = false /\ occurs c "(" = false
                   /\ occurs c ")" = false)
    by (destruct Hc as [->|[->| ->]]; repeat split; reflexivity).
  destruct Hpunct as (Hlf & Hsp & Hsep & Hl & Hr).
  induction m as [n a|n a ops IH] using Model_ind_ops; intros Hok Hfree d.
  - unfold model_ok in Hok. simpl in Hok. rewrite andb_true_r in Hok.
    unfold free_of in Hfree. simpl in Hfree. rewrite andb_true_r in Hfree.
    apply andb_prop in Hfree. destruct Hfree as [Hn Ha].
    apply negb_true_iff in Hn.
    rewrite text_at_leaf by exact Hok.
    change ");" with (")" ++ ";"). rewrite !count_append.
    rewrite (count_free _ _ Hlf), (count_free _ _ Hn), (count_free _ _ Hl),
      (count_free _ _ Hr).
    rewrite (count_free c (str_mul "    " d)) by now apply occurs_str_mul.
    rewrite (count_free c (join ", " (map param_text a)))
      by now apply occurs_params.
    simpl leaves. simpl blocks. lia.
  - pose proof Hok as Hok'.
    change (model_ok (mkModel n a (Some ops)))
      with (forallb param_ok a && forallb model_ok ops)%bool in Hok.
    apply andb_prop in Hok. destruct Hok as [Hpa Hops].
    change (free_of c (mkModel n a (Some ops)))
      with (negb (occurs c n)
            && forallb (fun arg => negb (occurs c (param_text arg))) a
            && forallb (free_of c) ops)%bool in Hfree.
    apply andb_prop in Hfree. destruct Hfree as [Hfree Hfops].
    apply andb_prop in Hfree. destruct Hfree as [Hn Ha].
    apply negb_true_iff in Hn.
    rewrite text_at_node by exact Hok'.
    rewrite !count_append, count_join_empty, map_map.
    rewrite (count_free _ _ Hlf), (count_free _ _ Hn), (count_free _ _ Hl),
      (count_free _ _ Hr).
    rewrite (count_free c (str_mul "    " d)) by now apply occurs_str_mul.
    rewrite (count_free c (join ", " (map param_text a)))
      by now apply occurs_params.
    assert (Hmap : map (fun x => count c (text_at (d + 1) x)) ops
                   = map (fun x => (leaves x * count c ";"
                                    + blocks x * (count c "{" + count c "}"))%nat)
                       ops).
    { apply map_ext_in. intros op Hin.
      rewrite Forall_forall in IH. rewrite forallb_forall in Hops, Hfops.
      apply IH; auto. }
    rewrite Hmap, list_sum_linear.
    change (leaves (mkModel n a (Some ops))) with (list_sum (map leaves ops)).
    change (blocks (mkModel n a (Some ops))) with (S (list_sum (map blocks ops))).
    lia.
Qed.

(** X9: in the text of a tree whose command names and parameter texts
    hold no brace and no semicolon, there is one [{] and one [}] for each
    node that has operands and one [;] for each node that has none: the
    braces are as many opening as closing, and every statement without a
    block is terminated. *)
Theorem braces_and_semicolons (m : Model) (d : Z) :
  model_ok m = true ->
  free_of "{" m = true ->
  free_of "}" m = true ->
  free_of ";" m = true ->
  count "{" (text_at d m) = blocks m
  /\ count "}" (text_at d m) = blocks m
  /\ count ";" (text_at d m) = leaves m.
Proof.
  intros Hok H1 H2 H3.
  rewrite !count_text_at by auto. simpl. lia.
Qed.

Lemma braces_and_semicolons_witness :
  model_ok (union [cube [VInt 1] []; hull (sphere [VInt 2] []) [] []] [] []) = true
  /\ count "{" (text_at 0 (union [cube [VInt 1] [];
                                  hull (sphere [VInt 2] []) [] []] [] [])) = 2%nat
  /\ count "}" (text_at 0 (union [cube [VInt 1] [];
                                  hull (sphere [VInt 2] []) [] []] [] [])) = 2%nat
  /\ count ";" (text_at 0 (union [cube [VInt 1] [];
                                  hull (sphere [VInt 2] []) [] []] [] [])) = 2%nat.
Proof.
  split; [reflexivity|].
  apply (@braces_and_semicolons
           (union [cube [VInt 1] []; hull (sphere [VInt 2] []) [] []] [] []) 0
           eq_refl eq_refl eq_refl eq_refl).
Defined.

(** ** The matrix product *)

(** X10: [A @ m] for an array [A] and a node [m] is the node
    [multmatrix] whose one parameter is the matrix as nested lists and
    whose one operand is [m]; it serializes to [multmatrix(] the text of
    the nested lists [){], the text of [m] one level deep, and [}].
    With anything else than a node on the right, [A @ v] never gives a
    node: the product that numpy computes is not returned, and the
    result is [None] whenever numpy does not raise. *)
Theorem matmul_text (Exc : Type) (nd : Array -> value -> Exc + value)
    (A : Array) (m : Model) :
  Array__matmul__ nd A (OModel m) = inr (Some (Model__rmatmul__ m A))
  /\ command_name (Model__rmatmul__ m A) = "multmatrix"
  /\ operands (Model__rmatmul__ m A) = Some [m]
  /\ (model_ok m = true ->
      Model__str__ (Model__rmatmul__ m A)
      = Ok ("multmatrix(" ++ py_str (VList A) ++ "){" ++ text_at 1 m ++ LF ++ "}"))
  /\ (forall v p, nd A v = inr p -> Array__matmul__ nd A (OValue v) = inr None)
  /\ (forall v r, Array__matmul__ nd A (OValue v) <> inr (Some r)).
Proof.
  split; [reflexivity | split; [reflexivity | split; [reflexivity | split; [|split]]]].
  - intros Hm. unfold Model__rmatmul__, multmatrix.
    rewrite init_block_text; [| reflexivity | simpl; now rewrite Hm].
    f_equal.
  - intros v p H. simpl. now rewrite H.
  - intros v r. simpl. destruct (nd A v); discriminate.
Qed.

Lemma matmul_text_witness :
  model_ok (cube [VInt 1] []) = true
  /\ Model__str__ (Model__rmatmul__ (cube [VInt 1] [])
                     [AList [AInt 1; AInt 0]; AList [AInt 0; AFloat "1.0"]])
     = Ok ("multmatrix([[1, 0], [0, 1.0]]){" ++ LF ++ "    cube(1);" ++ LF ++ "}").
Proof.
  split; [reflexivity|].
  apply (proj1 (proj2 (proj2 (proj2
           (matmul_text (fun _ v => @inr unit value v)
              [AList [AInt 1; AInt 0]; AList [AInt 0; AFloat "1.0"]]
              (cube [VInt 1] [])))))).
  reflexivity.
Defined.

(** ** Running the compiler *)

Lemma scad_eval_trace (Exc Mesh : Type) (o : outcomes Exc Mesh)
    (scad_code : string) :
  match temp_outcome o with
  | Raises x => recorded_scad_eval o scad_code [] = (Raises x, [CTemp])
  | Returns d =>
      exists k,
        (1 <= k <= 3)%nat
        /\ snd (recorded_scad_eval o scad_code [])
           = (CTemp :: firstn k (guarded_calls d scad_code) ++ [CCleanup d])%list
  end.
Proof.
  destruct o as [t wr run dec load clean].
  unfold recorded_scad_eval, scad_eval, recorded, io_bind, try_finally.
  cbn [temp_outcome write_outcome run_outcome decoded load_outcome
         cleanup_outcome app].
  destruct t as [d|x]; [|reflexivity].
  destruct (wr (d ++ "/_.scad") scad_code) as [[]|x].
  2:{ exists 1%nat. split; [lia|]. now destruct (clean d). }
  unfold run_openscad, io_bind.
  destruct (run ["openscad"; "-o"; d ++ "/_.stl"; d ++ "/_.scad"]) as [b|x].
  - destruct (dec b) as [s|x].
    + exists 3%nat. split; [lia|].
      destruct (load (d ++ "/_.stl")) as [mesh|x]; cbn; now destruct (clean d).
    + exists 2%nat. split; [lia|]. destruct x; cbn.
      2:{ destruct (dec output); cbn; now destruct (clean d). }
      all: now destruct (clean d).
  - exists 2%nat. split; [lia|]. destruct x; cbn.
    2:{ destruct (dec output); cbn; now destruct (clean d). }
    all: now destruct (clean d).
Qed.

(** X11: when the temporary directory cannot be created, [scad_eval]
    raises and makes no other call.  When it is created, [scad_eval]
    writes the source to [_.scad] in it; if that raises it goes no
    further; otherwise it runs [openscad -o] on [_.stl] and [_.scad]; if
    the run raises, or its output cannot be decoded, it goes no further;
    otherwise it loads [_.stl].  However that ends, it then calls
    [cleanup] on the directory, once, as its last call. *)
Theorem scad_eval_cleans_up (Exc Mesh : Type) (o : outcomes Exc Mesh)
    (scad_code : string) :
  match temp_outcome o with
  | Raises x => recorded_scad_eval o scad_code [] = (Raises x, [CTemp])
  | Returns d =>
      let source_fp := d ++ "/_.scad" in
      let output_fp := d ++ "/_.stl" in
      let argv := ["openscad"; "-o"; output_fp; source_fp] in
      snd (recorded_scad_eval o scad_code [])
      = match write_outcome o source_fp scad_code with
        | Raises _ =>
            [CTemp; CWrite source_fp scad_code; CCleanup d]
        | Returns _ =>
            match run_outcome o argv with
            | Raises _ =>
                [CTemp; CWrite source_fp scad_code; CRun argv; CCleanup d]
            | Returns out =>
                match decoded o out with
                | Raises _ =>
                    [CTemp; CWrite source_fp scad_code; CRun argv; CCleanup d]
                | Returns _ =>
                    [CTemp; CWrite source_fp scad_code; CRun argv;
                     CLoad output_fp; CCleanup d]
                end
            end
        end
  end.
Proof.
  destruct o as [t wr run dec load clean].
  unfold recorded_scad_eval, scad_eval, recorded, io_bind, try_finally.
  cbn [temp_outcome write_outcome run_outcome decoded load_outcome
         cleanup_outcome app].
  destruct t as [d|x]; [|reflexivity]. cbv zeta.
  destruct (wr (d ++ "/_.scad") scad_code) as [[]|x].
  2:{ now destruct (clean d). }
  unfold run_openscad, io_bind.
  destruct (run ["openscad"; "-o"; d ++ "/_.stl"; d ++ "/_.scad"]) as [b|x].
  - destruct (dec b) as [s|x].
    + destruct (load (d ++ "/_.stl")) as [mesh|x]; cbn; now destruct (clean d).
    + destruct x; cbn.
      2:{ destruct (dec output); cbn; now destruct (clean d). }
      all: now destruct (clean d).
  - destruct x; cbn.
    2:{ destruct (dec output); cbn; now destruct (clean d). }
    all: now destruct (clean d).
Qed.



(** X13: [render] serializes the node before anything else.  When a
    parameter of the tree cannot be formatted it raises the exception of
    the serializer and calls no collaborator: no directory is created
    and the compiler is not run.  Otherwise it is [scad_eval] on the
    text of the node, and once the directory is there the first thing
    written is that text, to [_.scad]. *)
Theorem render_serializes_first (Exc Mesh : Type) (o : outcomes Exc Mesh)
    (m : Model) :
  (forall e, first_error (all_params m) = Some e ->
             recorded_render o m [] = (Raises (Builtin e), []))
  /\ (first_error (all_params m) = None ->
      recorded_render o m []
      = recorded_scad_eval o (str_slice1 (text_at 0 m)) []
      /\ forall d, temp_outcome o = Returns d ->
           exists rest,
             snd (recorded_render o m [])
             = (CTemp :: CWrite (d ++ "/_.scad") (str_slice1 (text_at 0 m))
                :: rest)).
Proof.
  split.
  - intros e He. unfold recorded_render, render, Model__str__.
    destruct (write_scad_code_outcome m CodeWriter__init__) as [frags Hf].
    rewrite Hf. unfold outcome. now rewrite He.
  - intros Hok. apply first_error_none in Hok.
    assert (Hm : model_ok m = true).
    { destruct (model_ok m) eqn:E; [reflexivity|].
      destruct (write_scad_code_fail m CodeWriter__init__ E) as [e He].
      destruct (write_scad_code_outcome m CodeWriter__init__) as [frags Hf].
      rewrite Hf in He. unfold outcome in He. simpl in He.
      apply first_error_none in Hok. now rewrite Hok in He. }
    assert (Hr : recorded_render o m []
                 = recorded_scad_eval o (str_slice1 (text_at 0 m)) []).
    { unfold recorded_render, render. now rewrite Model__str__ok by exact Hm. }
    split; [exact Hr|].
    intros d Hd. rewrite Hr.
    pose proof (scad_eval_trace o (str_slice1 (text_at 0 m))) as Ht.
    rewrite Hd in Ht. destruct Ht as (k & Hk & Ht). rewrite Ht.
    destruct k as [|k]; [lia|]. simpl. eexists. reflexivity.
Qed.

Lemma render_serializes_first_witness :
  first_error (all_params (cube [] [("_fn", VInt 5)])) = Some TypeError
  /\ recorded_render
       {| temp_outcome := Returns "/tmp/d";
          write_outcome := fun _ _ => Returns tt;
          run_outcome := fun _ => Returns "";
          decoded := fun b => Returns b;
          load_outcome := fun _ => @Returns (exception unit string) nat 0%nat;
          cleanup_outcome := fun _ => Returns tt |}
       (cube [] [("_fn", VInt 5)]) []
     = (Raises (Builtin TypeError), []).
Proof.
  split; [reflexivity|].
  apply (proj1 (render_serializes_first
                  {| temp_outcome := Returns "/tmp/d";
                     write_outcome := fun _ _ => Returns tt;
                     run_outcome := fun _ => Returns "";
                     decoded := fun b => Returns b;
                     load_outcome :=
                       fun _ => @Returns (exception unit string) nat 0%nat;
                     cleanup_outcome := fun _ => Returns tt |}
                  (cube [] [("_fn", VInt 5)]))).
  reflexivity.
Defined.

(** ** Lines *)

Lemma count_newlines (m : Model) :
  model_ok m = true ->
  free_of "010" m = true ->
  forall d, count "010" (text_at d m) = (leaves m + 2 * blocks m)%nat.
Proof.
  induction m as [n a|n a ops IH] using Model_ind_ops; intros Hok Hfree d.
  - unfold model_ok in Hok. simpl in Hok. rewrite andb_true_r in Hok.
    unfold free_of in Hfree. simpl in Hfree. rewrite andb_true_r in Hfree.
    apply andb_prop in Hfree. destruct Hfree as [Hn Ha].
    apply negb_true_iff in Hn.
    rewrite text_at_leaf by exact Hok. rewrite !count_append.
    rewrite (count_free _ _ Hn).
    rewrite (count_free "010" (str_mul "    " d)) by now apply occurs_str_mul.
    rewrite (count_free "010" (join ", " (map param_text a)))
      by now apply occurs_params.
    reflexivity.
  - pose proof Hok as Hok'.
    change (model_ok (mkModel n a (Some ops)))
      with (forallb param_ok a && forallb model_ok ops)%bool in Hok.
    apply andb_prop in Hok. destruct Hok as [Hpa Hops].
    change (free_of "010" (mkModel n a (Some ops)))
      with (negb (occurs "010" n)
            && forallb (fun arg => negb (occurs "010" (param_text arg))) a
            && forallb (free_of "010") ops)%bool in Hfree.
    apply andb_prop in Hfree. destruct Hfree as [Hfree Hfops].
    apply andb_prop in Hfree. destruct Hfree as [Hn Ha].
    apply negb_true_iff in Hn.
    rewrite text_at_node by exact Hok'.
    rewrite !count_append, count_join_empty, map_map.
    rewrite (count_free _ _ Hn).
    rewrite (count_free "010" (str_mul "    " d)) by now apply occurs_str_mul.
    rewrite (count_free "010" (join ", " (map param_text a)))
      by now apply occurs_params.
    assert (Hmap : map (fun x => count "010" (text_at (d + 1) x)) ops
                   = map (fun x => (leaves x * 1 + blocks x * 2)%nat) ops).
    { apply map_ext_in. intros op Hin.
      rewrite Forall_forall in IH. rewrite forallb_forall in Hops, Hfops.
      rewrite IH by auto. lia. }
    rewrite Hmap, list_sum_linear.
    change (leaves (mkModel n a (Some ops))) with (list_sum (map leaves ops)).
    change (blocks (mkModel n a (Some ops))) with (S (list_sum (map blocks ops))).
    simpl count. lia.
Qed.

(** X14: when no command name and no parameter text of a tree holds a
    newline, the text of [__str__] has one line for each node and one
    more for each node that has operands, which is the line of its
    closing brace; the newlines in it are one fewer than its lines, the
    one that the first [fill] wrote being dropped. *)
Theorem lines_of_text (m : Model) :
  model_ok m = true ->
  free_of "010" m = true ->
  exists text,
    Model__str__ m = Ok text
    /\ S (count "010" text) = (leaves m + 2 * blocks m)%nat.
Proof.
  intros Hok Hfree. exists (str_slice1 (text_at 0 m)).
  split; [now apply Model__str__ok|].
  rewrite <- (count_newlines m Hok Hfree 0).
  destruct (text_at_head 0 m Hok) as [rest ->]. reflexivity.
Qed.

Lemma lines_of_text_witness :
  model_ok (union [cube [VInt 1] []; sphere [VInt 2] []] [] []) = true
  /\ free_of "010" (union [cube [VInt 1] []; sphere [VInt 2] []] [] []) = true
  /\ exists text,
       Model__str__ (union [cube [VInt 1] []; sphere [VInt 2] []] [] []) = Ok text
       /\ S (count "010" text) = 4%nat.
Proof.
  split; [reflexivity | split; [reflexivity|]].
  apply (@lines_of_text (union [cube [VInt 1] []; sphere [VInt 2] []] [] [])
           eq_refl eq_refl).
Defined.

(** ** Where a serialization that raises stops *)

Lemma params_loop_stopped (l : list (option string * value)) (w : CodeWriter)
    (e : exn) :
  first_error l = Some e ->
  exists p,
    for_in (iter_list CodeWriter l) (fun x => write (VStr ", ") ;; write_arg x) w
    = (Raise e, appended w (p ++ [VStr ", "])).
Proof.
  revert w. induction l as [|x l IH]; intros w H; simpl in H.
  - discriminate.
  - destruct (format_parameter x) as [v|e'] eqn:E.
    + destruct (IH (appended w [VStr ", "; v]) H) as [p Hp].
      exists ([VStr ", "; v] ++ p)%list. simpl for_in.
      rewrite bind_ok with (a := tt) (w' := appended w [VStr ", "; v]).
      * rewrite Hp, appended_appended. now rewrite <- app_assoc.
      * rewrite bind_ok with (a := tt) (w' := appended w [VStr ", "]) by reflexivity.
        unfold bind, lift. rewrite E. unfold write, appended. simpl.
        now rewrite <- app_assoc.
    + inversion H; subst e'. exists []. simpl for_in.
      rewrite bind_raise with (e := e) (w' := appended w [VStr ", "]); [reflexivity|].
      rewrite bind_ok with (a := tt) (w' := appended w [VStr ", "]) by reflexivity.
      unfold bind, lift. now rewrite E.
Qed.

Lemma params_stopped (l : list (option string * value)) (w : CodeWriter)
    (e : exn) :
  first_error l = Some e ->
  exists frags,
    interleave (write (VStr ", ")) write_arg (iter_list CodeWriter l) w
    = (Raise e, appended w frags)
    /\ (frags = [] \/ exists p, frags = (p ++ [VStr ", "])%list).
Proof.
  destruct l as [|x l]; intros H; simpl in H; [discriminate|].
  change (iter_list CodeWriter (x :: l)) with (ret x :: iter_list CodeWriter l).
  pose proof (format_parameter_not_stop x) as Hstop.
  destruct (format_parameter x) as [v|e'] eqn:E.
  - destruct (params_loop_stopped l (appended w [v]) H) as [p Hp].
    exists ([v] ++ p ++ [VStr ", "])%list. split.
    + rewrite interleave_first with (x := x) (w1 := w) (w2 := appended w [v]).
      * rewrite Hp. now rewrite appended_appended.
      * reflexivity.
      * unfold bind, lift. now rewrite E.
    + right. exists ([v] ++ p)%list. now rewrite <- app_assoc.
  - inversion H; subst e'. exists []. split; [|now left].
    rewrite interleave_first_raise with (x := x) (w1 := w) (w2 := w) (e := e).
    + unfold appended. rewrite app_nil_r. now destruct w.
    + reflexivity.
    + unfold bind, lift. now rewrite E.
    + congruence.
Qed.

Lemma stopped_app (p frags : list value) :
  stopped frags -> stopped (p ++ frags).
Proof.
  intros [q [H|H]]; exists (p ++ q)%list; [left|right];
    now rewrite H, app_assoc.
Qed.

Lemma head_stopped (n : string) (a : list (option string * value))
    (o : option (list Model)) (w : CodeWriter) (e : exn) :
  first_error a = Some e ->
  exists frags,
    _write_scad_code (mkModel n a o) w = (Raise e, appended w frags)
    /\ stopped frags.
Proof.
  intros Ha. simpl.
  set (w0 := appended w [VStr (LF ++ str_mul "    " (_indent w) ++ n)]).
  destruct (params_stopped a (appended w0 [VStr "("]) Ha) as (frags & Hf & Hlast).
  exists ([VStr (LF ++ str_mul "    " (_indent w) ++ n)] ++ [VStr "("] ++ frags)%list.
  split.
  - rewrite bind_ok with (a := tt) (w' := w0) by reflexivity.
    rewrite bind_raise with (e := e) (w' := appended (appended w0 [VStr "("]) frags).
    + unfold w0. now rewrite !appended_appended.
    + unfold delimit.
      rewrite bind_ok with (a := tt) (w' := appended w0 [VStr "("]) by reflexivity.
      now rewrite bind_raise with (e := e)
                    (w' := appended (appended w0 [VStr "("]) frags).
  - destruct Hlast as [->|[p ->]].
    + exists [VStr (LF ++ str_mul "    " (_indent w) ++ n)]. now left.
    + apply stopped_app, stopped_app. exists p. now right.
Qed.

Lemma for_list_stopped (ops : list Model) :
  Forall (fun op => forall w e,
            first_error (all_params op) = Some e ->
            exists frags,
              _write_scad_code op w
              = (Raise e, deepened w frags (open_blocks op))
              /\ stopped frags) ops ->
  forall w e,
    first_error (flat_map all_params ops) = Some e ->
    exists frags,
      for_list _write_scad_code ops w
      = (Raise e, deepened w frags (level_of_first fails open_blocks ops))
      /\ stopped frags.
Proof.
  induction 1 as [|op ops Hop _ IH]; intros w e He; simpl in He.
  - discriminate.
  - rewrite first_error_app in He.
    change (for_list _write_scad_code (op :: ops))
      with (_write_scad_code op ;; for_list _write_scad_code ops).
    simpl level_of_first. unfold fails at 1.
    destruct (first_error (all_params op)) as [e'|] eqn:E.
    + inversion He; subst e'. destruct (Hop w e eq_refl) as (f1 & H1 & Hs).
      exists f1. split; [|exact Hs].
      now rewrite bind_raise with (e := e) (w' := deepened w f1 (open_blocks op)).
    + destruct (write_scad_code_outcome op w) as [f1 H1].
      unfold outcome in H1. rewrite E in H1.
      rewrite open_blocks_ok in H1 by exact E.
      destruct (IH (deepened w f1 0) e He) as (f2 & H2 & Hs).
      exists (f1 ++ f2)%list. split; [|now apply stopped_app].
      rewrite bind_ok with (a := tt) (w' := deepened w f1 0) by exact H1.
      rewrite H2, deepened_deepened. reflexivity.
Qed.

(** A serialization that raises has written, last, the parenthesis that
    opens a parameter list or a separator of parameters. *)
Lemma write_scad_code_stopped (m : Model) :
  forall w e,
    first_error (all_params m) = Some e ->
    exists frags,
      _write_scad_code m w = (Raise e, deepened w frags (open_blocks m))
      /\ stopped frags.
Proof.
  induction m as [n a|n a ops IH] using Model_ind_ops; intros w e He.
  - simpl all_params in He. rewrite app_nil_r in He. simpl open_blocks.
    rewrite He.
    destruct (@head_stopped n a None w e He) as (frags & Hf & Hs).
    exists frags. split; [|exact Hs]. now rewrite Hf, appended_deepened.
  - simpl all_params in He. rewrite first_error_app in He. simpl open_blocks.
    destruct (first_error a) as [e'|] eqn:Ha.
    + inversion He; subst e'.
      destruct (@head_stopped n a (Some ops) w e Ha) as (frags & Hf & Hs).
      exists frags. split; [|exact Hs]. now rewrite Hf, appended_deepened.
    + apply first_error_none in Ha.
      rewrite write_scad_code_head by exact Ha.
      set (w1 := appended w (head_frags (_indent w) n a)).
      destruct (for_list_stopped IH (entered w1) He) as (frags & Hf & Hs).
      assert (Hex : existsb fails ops = true).
      { destruct (existsb fails ops) eqn:Hex; [reflexivity|].
        apply first_error_operands in Hex. congruence. }
      rewrite Hex.
      exists (head_frags (_indent w) n a ++ [VStr "{"] ++ frags)%list.
      split; [|now apply stopped_app, stopped_app].
      rewrite block_raise with (e := e)
        (w2 := deepened (entered w1) frags
                 (level_of_first fails open_blocks ops)) by exact Hf.
      f_equal. unfold deepened, entered, w1, appended.
      cbn [_source _buffer _indent].
      f_equal; [now rewrite <- !app_assoc | lia].
Qed.

Lemma model_ok_first_error (m : Model) :
  model_ok m = false -> exists e, first_error (all_params m) = Some e.
Proof.
  intros H. destruct (write_scad_code_fail m CodeWriter__init__ H) as [e He].
  destruct (write_scad_code_outcome m CodeWriter__init__) as [frags Hf].
  rewrite Hf in He. unfold outcome in He. simpl in He.
  destruct (first_error (all_params m)) as [e'|]; [|discriminate].
  exists e'. reflexivity.
Qed.

Lemma Model__str__raise (m : Model) (e : exn) :
  first_error (all_params m) = Some e -> Model__str__ m = Raise e.
Proof.
  intros He. unfold Model__str__.
  destruct (write_scad_code_outcome m CodeWriter__init__) as [frags Hf].
  rewrite Hf. unfold outcome. now rewrite He.
Qed.

(** ** Statements and blocks, whatever the parameters *)




(** C2 as it is worded fails on its two examples, where the opening
    brace follows the closing parenthesis directly, without a space, and
    for a node with a parameter in the tree that cannot be formatted:
    serializing [union([cube(_fn=5)])] raises [TypeError] after the
    [{] of [union] is written, and its [}] never is. *)
Lemma union_text_counterexample :
  Model__str__ (union [cube [VInt 1] []; sphere [VInt 2] []] [] [])
  <> Ok ("union() {" ++ LF ++ "    cube(1);" ++ LF ++ "    sphere(2);" ++ LF ++ "}")
  /\ Model__str__ (union [] [] []) <> Ok ("union() {" ++ LF ++ "}")
  /\ _write_scad_code (union [cube [] [("_fn", VInt 5)]] [] []) CodeWriter__init__
     = (Raise TypeError,
        {| _source := [VStr (LF ++ "union"); VStr "("; VStr ")"; VStr "{";
                       VStr (LF ++ "    cube"); VStr "("];
           _buffer := [];
           _indent := 1 |}).
Proof. split; [|split]; vm_compute; (discriminate || reflexivity). Qed.

(** C2, amended: when every parameter of the tree can be formatted, a
    node whose operands are present, even when there is none, serializes
    as its command name and parameter list followed at once by [{], then
    the serializations of its operands in order, each starting on a line
    of its own one level deeper than the node, then [}] on a line of its
    own at the depth of the node, with no [;] after it.
    [union([cube(1), sphere(2)])] gives
    [union(){\n    cube(1);\n    sphere(2);\n}] and [union([])] gives
    [union(){\n}].  When some parameter of the tree cannot be formatted,
    the serialization raises and what it has written ends with an
    opening parenthesis or a separator of parameters: the [}] of the
    node is not written. *)
Theorem operands_block_text (n : string) (a : list (option string * value))
    (ops : list Model) (w : CodeWriter) :
  (model_ok (mkModel n a (Some ops)) = true ->
   (exists w',
      _write_scad_code (mkModel n a (Some ops)) w = (Ok tt, w')
      /\ _indent w' = _indent w
      /\ source w'
         = source w
           ++ LF ++ str_mul "    " (_indent w) ++ n
           ++ "(" ++ join ", " (map param_text a) ++ ")"
           ++ "{" ++ join "" (map (text_at (_indent w + 1)) ops)
           ++ LF ++ str_mul "    " (_indent w) ++ "}")
   /\ (forall op, In op ops ->
       exists rest,
         text_at (_indent w + 1) op
         = LF ++ str_mul "    " (_indent w + 1) ++ command_name op ++ "(" ++ rest))
  /\ (model_ok (mkModel n a (Some ops)) = false ->
      exists e frags k,
        _write_scad_code (mkModel n a (Some ops)) w
        = (Raise e, deepened w frags k)
        /\ stopped frags
        /\ Model__str__ (mkModel n a (Some ops)) = Raise e)
  /\ Model__str__ (union [cube [VInt 1] []; sphere [VInt 2] []] [] [])
     = Ok ("union(){" ++ LF ++ "    cube(1);" ++ LF ++ "    sphere(2);" ++ LF ++ "}")
  /\ Model__str__ (union [] [] []) = Ok ("union(){" ++ LF ++ "}").
Proof.
  split; [|split; [|split; reflexivity]].
  - intros H. split.
    + destruct (write_scad_code_text _ w H) as (w' & Hw & Hi & _ & Hs).
      exists w'. repeat split; try assumption.
      now rewrite Hs, text_at_node by exact H.
    + intros op Hin. apply text_at_head.
      change (model_ok (mkModel n a (Some ops)))
        with (forallb param_ok a && forallb model_ok ops)%bool in H.
      apply andb_prop in H. destruct H as [_ Hops].
      rewrite forallb_forall in Hops. now apply Hops.
  - intros H. destruct (model_ok_first_error _ H) as [e He].
    destruct (write_scad_code_stopped (mkModel n a (Some ops)) w He)
      as (frags & Hf & Hs).
    exists e, frags, (open_blocks (mkModel n a (Some ops))).
    repeat split; try assumption. now apply Model__str__raise.
Qed.

Lemma operands_block_text_witness :
  (model_ok (union [cube [VInt 1] []; sphere [VInt 2] []] [] []) = true
   /\ exists rest,
        text_at (_indent CodeWriter__init__ + 1) (sphere [VInt 2] [])
        = LF ++ str_mul "    " (_indent CodeWriter__init__ + 1)
          ++ command_name (sphere [VInt 2] []) ++ "(" ++ rest)
  /\ (model_ok (union [cube [] [("_fn", VInt 5)]] [] []) = false
      /\ exists e frags k,
           _write_scad_code (union [cube [] [("_fn", VInt 5)]] [] [])
             CodeWriter__init__
           = (Raise e, deepened CodeWriter__init__ frags k)
           /\ stopped frags
           /\ Model__str__ (union [cube [] [("_fn", VInt 5)]] [] []) = Raise e).
Proof.
  split; (split; [reflexivity|]).
  - apply (proj2 (proj1 (operands_block_text "union" []
                           [cube [VInt 1] []; sphere [VInt 2] []]
                           CodeWriter__init__) eq_refl)).
    right. left. reflexivity.
  - apply (proj1 (proj2 (operands_block_text "union" []
                           [cube [] [("_fn", VInt 5)]]
                           CodeWriter__init__)) eq_refl).
Defined.

Lemma level_of_first_nonneg (ops : list Model) :
  0 <= level_of_first fails open_blocks ops.
Proof.
  induction ops as [|op ops IH]; simpl; [lia|].
  destruct (fails op); [apply open_blocks_nonneg | exact IH].
Qed.

Lemma operands_first_error (ops : list Model) :
  forallb model_ok ops = false ->
  exists e, first_error (flat_map all_params ops) = Some e.
Proof.
  intros H. apply (model_ok_first_error (mkModel "" [] (Some ops))). exact H.
Qed.

Lemma operands_loop_ok (ops : list Model) (w : CodeWriter) :
  forallb model_ok ops = true ->
  exists frags, for_list _write_scad_code ops w = (Ok tt, appended w frags).
Proof.
  intros H. apply for_list_ok. apply Forall_forall. intros op Hin w0.
  apply write_scad_code_ok. rewrite forallb_forall in H. now apply H.
Qed.

Lemma operands_loop_stopped (ops : list Model) (w : CodeWriter) (e : exn) :
  first_error (flat_map all_params ops) = Some e ->
  exists frags,
    for_list _write_scad_code ops w
    = (Raise e, deepened w frags (level_of_first fails open_blocks ops))
    /\ stopped frags.
Proof.
  intros H. apply for_list_stopped; [|exact H].
  apply Forall_forall. intros op _ w0 e0. apply write_scad_code_stopped.
Qed.

(** C5 as it is worded fails when the emission inside the block raises:
    serializing [union([hull(cube(_fn=5))])] raises [TypeError] inside
    two blocks and leaves the depth at two, and a block around the
    operand [cube(_fn=5)] alone raises and leaves the depth at one; no
    [}] is written in either case.  It also fails for an emission that
    completes with a block left open inside it: [interleave] swallows
    the [StopIteration] that its first call of [f] raises inside a
    nested block, the block around it then decrements once, from two to
    one, and writes its [}] at depth one. *)
Lemma block_raise_counterexample :
  (let run := _write_scad_code
                (union [hull (cube [] [("_fn", VInt 5)]) [] []] [] [])
                CodeWriter__init__ in
   fst run = Raise TypeError
   /\ _indent (snd run) = 2
   /\ last (_source (snd run)) (VStr "") = VStr "(")
  /\ block (for_list _write_scad_code [cube [] [("_fn", VInt 5)]])
       CodeWriter__init__
     = (Raise TypeError,
        {| _source := [VStr "{"; VStr (LF ++ "    cube"); VStr "("];
           _buffer := [];
           _indent := 1 |})
  /\ block (interleave (ret tt)
              (fun _ : unit => block (raise StopIteration))
              (iter_list CodeWriter [tt]))
       CodeWriter__init__
     = (Ok tt,
        {| _source := [VStr "{"; VStr "{"; VStr (LF ++ "    }")];
           _buffer := [];
           _indent := 1 |}).
Proof. repeat split. Qed.

(** C5, amended: [block] writes [{], runs the emission inside one level
    deeper, and what follows depends on that emission alone.  When it
    completes, [block] decrements the depth once and appends [}] on a
    line of its own at the decremented depth; the depth is then back at
    its value before the block exactly when the emission left the depth
    as it found it.  When it raises, [block] raises the same exception
    and does nothing more: the depth stays as the emission left it and
    no [}] is appended.  For the one use of [block] in the code, around
    the serializations of the operands of a node: when every parameter
    of the operands can be formatted the block completes with the depth
    back at its value before the block and [}] last, on a line of its
    own at that depth; otherwise it raises with the depth at least one
    above its value before the block, and what was written ends with an
    opening parenthesis or a separator of parameters, not with [}]. *)
Theorem block_restores_depth (body : M CodeWriter unit) (ops : list Model)
    (w : CodeWriter) :
  block body w
  = match body (entered w) with
    | (Ok _, w2) =>
        (Ok tt,
         {| _source := _source w2
                       ++ [VStr (LF ++ str_mul "    " (_indent w2 - 1) ++ "}")];
            _buffer := _buffer w2;
            _indent := _indent w2 - 1 |})
    | (Raise e, w2) => (Raise e, w2)
    end
  /\ (forall w2, body (entered w) = (Ok tt, w2) ->
      (_indent (snd (block body w)) = _indent w
       <-> _indent w2 = _indent (entered w)))
  /\ (forallb model_ok ops = true ->
      exists frags,
        block (for_list _write_scad_code ops) w
        = (Ok tt,
           {| _source := _source w ++ [VStr "{"] ++ frags
                         ++ [VStr (LF ++ str_mul "    " (_indent w) ++ "}")];
              _buffer := _buffer w;
              _indent := _indent w |}))
  /\ (forallb model_ok ops = false ->
      exists e frags k,
        block (for_list _write_scad_code ops) w
        = (Raise e,
           {| _source := _source w ++ [VStr "{"] ++ frags;
              _buffer := _buffer w;
              _indent := _indent w + 1 + k |})
        /\ 0 <= k
        /\ stopped frags).
Proof.
  split; [|split; [|split]].
  - destruct (body (entered w)) as [[[]|e] w2] eqn:Hb.
    + now apply block_ok.
    + now apply block_raise.
  - intros w2 Hb. rewrite block_ok with (w2 := w2) by exact Hb.
    unfold closed, entered. cbn [snd _indent]. lia.
  - intros H. destruct (operands_loop_ok ops (entered w) H) as [frags Hf].
    exists frags. rewrite block_ok with (w2 := appended (entered w) frags)
      by exact Hf.
    now rewrite closed_entered.
  - intros H. destruct (operands_first_error ops H) as [e He].
    destruct (operands_loop_stopped ops (entered w) He) as (frags & Hf & Hs).
    exists e, frags, (level_of_first fails open_blocks ops).
    split; [|split; [apply level_of_first_nonneg | exact Hs]].
    rewrite block_raise
      with (e := e)
           (w2 := deepened (entered w) frags
                    (level_of_first fails open_blocks ops))
      by exact Hf.
    unfold deepened, entered. cbn [_source _buffer _indent].
    now rewrite <- app_assoc.
Qed.

Lemma block_restores_depth_witness :
  (forallb model_ok [cube [VInt 1] []] = true
   /\ exists frags,
        block (for_list _write_scad_code [cube [VInt 1] []]) CodeWriter__init__
        = (Ok tt,
           {| _source := _source CodeWriter__init__ ++ [VStr "{"] ++ frags
                         ++ [VStr (LF ++ str_mul "    "
                                           (_indent CodeWriter__init__) ++ "}")];
              _buffer := _buffer CodeWriter__init__;
              _indent := _indent CodeWriter__init__ |}))
  /\ (forallb model_ok [hull (cube [] [("_fn", VInt 5)]) [] []] = false
      /\ exists e frags k,
           block (for_list _write_scad_code
                    [hull (cube [] [("_fn", VInt 5)]) [] []])
             CodeWriter__init__
           = (Raise e,
              {| _source := _source CodeWriter__init__ ++ [VStr "{"] ++ frags;
                 _buffer := _buffer CodeWriter__init__;
                 _indent := _indent CodeWriter__init__ + 1 + k |})
           /\ 0 <= k
           /\ stopped frags).
Proof.
  split; (split; [reflexivity|]).
  - apply (proj1 (proj2 (proj2 (block_restores_depth (ret tt)
                                  [cube [VInt 1] []] CodeWriter__init__)))
             eq_refl).
  - apply (proj2 (proj2 (proj2 (block_restores_depth (ret tt)
                                  [hull (cube [] [("_fn", VInt 5)]) [] []]
                                  CodeWriter__init__)))
             eq_refl).
Defined.

(** ** format_parameter and the limit on the digits of an int *)

Lemma within_limit_lowered (v : value) :
  within_limit (lowered v) = within_limit v.
Proof. destruct v as [[|]| | | |]; reflexivity. Qed.

Lemma format_parameter_limit_unnamed (v : value) :
  format_parameter_limit (None, v) = Returns (lowered v).
Proof. destruct v as [[|]| | | |]; reflexivity. Qed.

Lemma format_parameter_limit_named (k : string) (v : value) :
  str_truthy k = true ->
  sigil k = false ->
  format_parameter_limit (Some k, v)
  = if within_limit (lowered v)
    then Returns (VStr (k ++ "=" ++ py_str (lowered v)))
    else Raises ValueError.
Proof.
  destruct k as [|c k]; [discriminate|]. intros _ Hs.
  change (Ascii.eqb c "_" = false) in Hs.
  unfold format_parameter_limit, bind_result, str_index0, py_str_limit.
  rewrite Hs. cbv zeta.
  destruct v as [[|]| | | |]; cbn [str_truthy lowered];
    destruct (within_limit _); reflexivity.
Qed.

Lemma format_parameter_limit_sigil_str (k : string) (v : value) (s : string) :
  sigil k = true ->
  lowered v = VStr s ->
  format_parameter_limit (Some k, v)
  = Returns (VStr (("$" ++ str_slice1 s) ++ "=" ++ s)).
Proof.
  destruct k as [|c k]; [discriminate|]. intros Hs Hv.
  change (Ascii.eqb c "_" = true) in Hs.
  unfold format_parameter_limit, bind_result, str_index0, py_str_limit.
  rewrite Hs. cbv zeta.
  destruct v as [[|]| | | |]; try discriminate;
    inversion Hv; subst; reflexivity.
Qed.

Lemma format_parameter_limit_sigil_other (k : string) (v : value) :
  sigil k = true ->
  (forall s, lowered v <> VStr s) ->
  format_parameter_limit (Some k, v) = Raises (Plain TypeError).
Proof.
  destruct k as [|c k]; [discriminate|]. intros Hs Hv.
  change (Ascii.eqb c "_" = true) in Hs.
  unfold format_parameter_limit, bind_result, str_index0, py_str_limit.
  rewrite Hs. cbv zeta.
  destruct v as [[|]| | |s|]; try reflexivity.
  - now destruct (Hv "true").
  - now destruct (Hv "false").
  - now destruct (Hv s).
Qed.

Lemma format_parameter_limit_agrees (arg : option string * value) :
  within_limit (snd arg) = true ->
  format_parameter_limit arg
  = match format_parameter arg with
    | Ok r => Returns r
    | Raise e => Raises (Plain e)
    end.
Proof.
  destruct arg as [[k|] v]; cbn [snd]; intros Hv.
  - destruct k as [|c k]; [now destruct v as [[|]| | | |]|].
    destruct (Ascii.eqb c "_") eqn:Hs.
    + unfold format_parameter_limit, format_parameter, bind_result,
        str_index0, py_str_limit.
      rewrite Hs. cbv zeta.
      destruct v as [[|]| | | |]; reflexivity.
    + rewrite format_parameter_limit_named by (reflexivity || exact Hs).
      rewrite format_parameter_named by (reflexivity || exact Hs).
      now rewrite within_limit_lowered, Hv.
  - rewrite format_parameter_limit_unnamed, format_parameter_unnamed.
    reflexivity.
Qed.

(** C10 as it is worded fails for a parameter with a plain name whose
    value holds an int of more than 4300 digits: the f-string that
    renders [name=value] raises [ValueError]. *)
Lemma format_parameter_limit_counterexample :
  format_parameter_limit (Some "h", VInt (10 ^ 4300)) = Raises ValueError
  /\ format_parameter_limit (Some "points", VList [AInt 0; AInt (- 10 ^ 4300)])
     = Raises ValueError.
Proof. split; vm_compute; reflexivity. Qed.

(** C10, amended: [format_parameter] returns for every parameter without
    a name, giving back the value.  For a name that is not empty and
    does not begin with [_] it returns [name=value] exactly when every
    int the value holds has at most 4300 digits, and raises
    [ValueError] otherwise.  For a name that begins with [_] it returns
    when the value is a string or a boolean, and raises [TypeError] for
    every other value.  With the empty string as name it raises
    [IndexError].  For a value within the limit on digits it returns and
    raises as the function without the limit does. *)
Theorem format_parameter_total :
  (forall v, format_parameter_limit (None, v) = Returns (lowered v))
  /\ (forall k v,
        str_truthy k = true ->
        sigil k = false ->
        format_parameter_limit (Some k, v)
        = if within_limit v
          then Returns (VStr (k ++ "=" ++ py_str (lowered v)))
          else Raises ValueError)
  /\ (forall k v s,
        sigil k = true ->
        lowered v = VStr s ->
        format_parameter_limit (Some k, v)
        = Returns (VStr (("$" ++ str_slice1 s) ++ "=" ++ s)))
  /\ (forall v, format_parameter_limit (Some "", v) = Raises (Plain IndexError))
  /\ (forall k v,
        sigil k = true ->
        (forall s, lowered v <> VStr s) ->
        format_parameter_limit (Some k, v) = Raises (Plain TypeError))
  /\ (forall arg,
        within_limit (snd arg) = true ->
        format_parameter_limit arg
        = match format_parameter arg with
          | Ok r => Returns r
          | Raise e => Raises (Plain e)
          end).
Proof.
  split; [|split; [|split; [|split; [|split]]]].
  - apply format_parameter_limit_unnamed.
  - intros k v Hk Hs. rewrite <- within_limit_lowered.
    now apply format_parameter_limit_named.
  - apply format_parameter_limit_sigil_str.
  - intros v. now destruct v as [[|]| | | |].
  - apply format_parameter_limit_sigil_other.
  - apply format_parameter_limit_agrees.
Qed.

Lemma format_parameter_total_witness :
  format_parameter_limit (Some "h", VInt 10)
  = (if within_limit (VInt 10)
     then Returns (VStr ("h" ++ "=" ++ py_str (lowered (VInt 10))))
     else Raises ValueError)
  /\ format_parameter_limit (Some "_fn", VBool false)
     = Returns (VStr (("$" ++ str_slice1 "false") ++ "=" ++ "false"))
  /\ format_parameter_limit (Some "_fn", VInt 50) = Raises (Plain TypeError).
Proof.
  split; [|split].
  - apply (proj1 (proj2 format_parameter_total) "h" (VInt 10)); reflexivity.
  - apply (proj1 (proj2 (proj2 format_parameter_total)) "_fn" (VBool false));
      reflexivity.
  - apply (proj1 (proj2 (proj2 (proj2 (proj2 format_parameter_total))))
             "_fn" (VInt 50)).
    + reflexivity.
    + intros s. discriminate.
Defined.

(** ** Serializing twice *)

Lemma tracks_on_writer {A : Type} (a : M CodeWriter A) :
  tracks (on_writer a) a.
Proof. intros s w. unfold on_writer. cbn [fst snd]. now destruct (a w). Qed.

Lemma tracks_bind {A B : Type} (a' : M world A) (a : M CodeWriter A)
    (k' : A -> M world B) (k : A -> M CodeWriter B) :
  tracks a' a ->
  (forall x, tracks (k' x) (k x)) ->
  tracks (bind a' k') (bind a k).
Proof.
  intros Ha Hk s w. unfold bind. rewrite Ha.
  destruct (a w) as [[x|e] w']; cbn [fst snd]; [apply Hk | reflexivity].
Qed.

Lemma tracks_ret {A : Type} (x : A) : tracks (ret x) (ret x).
Proof. intros s w. reflexivity. Qed.

Lemma tracks_for_list {A B : Type} (f' : B -> M world unit)
    (f : A -> M CodeWriter unit) (g : A -> B) (l : list A) :
  Forall (fun x => tracks (f' (g x)) (f x)) l ->
  tracks (for_list f' (map g l)) (for_list f l).
Proof.
  induction 1 as [|x l Hx _ IH]; simpl.
  - apply tracks_ret.
  - apply tracks_bind; [exact Hx | intros _; exact IH].
Qed.

Lemma tracks_block (body' : M world unit) (body : M CodeWriter unit) :
  tracks body' body -> tracks (block_in body') (block body).
Proof.
  intros H. unfold block_in, block.
  repeat (apply tracks_bind; [try apply tracks_on_writer | intros _]);
    try exact H.
  apply tracks_on_writer.
Qed.

Lemma tracks_write_scad_code (m : Model) :
  tracks (Node_write_scad_code (as_node m)) (_write_scad_code m).
Proof.
  induction m as [n a|n a ops IH] using Model_ind_ops; simpl.
  - apply tracks_bind; [apply tracks_on_writer | intros _].
    apply tracks_bind; [apply tracks_on_writer | intros _].
    apply tracks_on_writer.
  - apply tracks_bind; [apply tracks_on_writer | intros _].
    apply tracks_bind; [apply tracks_on_writer | intros _].
    apply tracks_block, tracks_for_list. exact IH.
Qed.

(** C4 as it is worded fails for a node that was given an iterator as
    operands: [union(iter([cube(1)]))] gives the text of the union of
    the cube the first time, and an empty block the second time, since
    the first serialization moved the iterator that the node holds to
    its end. *)
Lemma iterator_operands_counterexample :
  let node := mkNode "union" [] (Some (OIter 0 [as_node (cube [VInt 1] [])])) in
  let first := Node__str__ node (fun _ => 0%nat) in
  let second := Node__str__ node (snd first) in
  fst first = Ok ("union(){" ++ LF ++ "    cube(1);" ++ LF ++ "}")
  /\ fst second = Ok ("union(){" ++ LF ++ "}")
  /\ snd first 0%nat = 1%nat.
Proof. repeat split. Qed.

(** C4, amended: for a node whose operands are absent or lists at every
    level, a serialization changes the writer it is given and nothing
    else: it leaves every iterator of the store where it was, and does
    to the writer what the serializer of such nodes does.  Converting
    the node to text gives the same result, text or exception, whatever
    the store, and leaves the store as it was, so that a second
    conversion, made after the first, gives the same result again. *)
Theorem serialization_repeatable (m : Model) (s : store) (w : CodeWriter) :
  Node_write_scad_code (as_node m) (s, w)
  = (fst (_write_scad_code m w), (s, snd (_write_scad_code m w)))
  /\ Node__str__ (as_node m) s = (Model__str__ m, s)
  /\ Node__str__ (as_node m) (snd (Node__str__ (as_node m) s))
     = Node__str__ (as_node m) s.
Proof.
  assert (H : forall s0, Node__str__ (as_node m) s0 = (Model__str__ m, s0)).
  { intros s0. unfold Node__str__, Model__str__.
    rewrite (tracks_write_scad_code m s0 CodeWriter__init__).
    now destruct (_write_scad_code m CodeWriter__init__) as [[[]|e] c]. }
  split; [apply tracks_write_scad_code | split; [apply H|]].
  now rewrite !H.
Qed.
